(** * A shallow embedding of package nice (src/nice.go)

    Byte slices are [list byte].  Where the code distinguishes a nil
    slice from an empty one (handler arguments, the result of
    [EvalArgs]) the slice is an [option]: [None] is nil. *)

From Stdlib Require Import List Bool ZArith Lia String.
From Stdlib Require Import Strings.Byte.
Import ListNotations.
Open Scope Z_scope.

Definition bytes := list byte.

(** The four special bytes. *)
Definition OPEN : byte := x28.   (* ( *)
Definition CLOSE : byte := x29.  (* ) *)
Definition PIPE : byte := x7c.   (* | *)
Definition SLASH : byte := x5c.  (* \ *)

(** Go's [s[i:j]] on a slice that is long enough. *)
Definition slice (s : bytes) (i j : nat) : bytes :=
  firstn (j - i) (skipn i s).

(** Go's [s[i:]]. *)
Definition slice_from (s : bytes) (i : nat) : bytes := skipn i s.

(** Go's [append] on a possibly nil slice: the result is never nil. *)
Definition append (r : option bytes) (xs : bytes) : option bytes :=
  Some (match r with Some l => l | None => [] end ++ xs).

(** Go's [result == nil]. *)
Definition is_nil {A} (r : option A) : bool :=
  match r with None => true | Some _ => false end.

(** ** Escape *)

Definition special (c : byte) : bool :=
  Byte.eqb c SLASH || Byte.eqb c OPEN || Byte.eqb c CLOSE || Byte.eqb c PIPE.

(** The [for kk, c := range s] loop of [Escape]; [xs] is [s[kk:]]. *)
Fixpoint escape_loop (s xs : bytes) (kk : nat) (result : option bytes)
  : option bytes :=
  match xs with
  | [] => result
  | c :: xs' =>
      let special := special c in
      let result :=
        if special && is_nil result
        then append (Some []) (firstn kk s) else result in
      let result := if special then append result [SLASH] else result in
      let result := if negb (is_nil result) then append result [c] else result in
      escape_loop s xs' (S kk) result
  end.

Definition Escape (s : bytes) : bytes :=
  match escape_loop s s 0 None with
  | Some result => result
  | None => s
  end.

(** ** Unescape

    [result] stands for [result[:offset]], the only part of the buffer
    that is ever written or returned. *)
Fixpoint unescape_loop (s xs : bytes) (kk : nat) (result : option bytes)
  (slash : bool) : option bytes :=
  match xs with
  | [] => result
  | c :: xs' =>
      let result :=
        if negb slash && Byte.eqb c SLASH then result
        else if slash && is_nil result then
          (* result = s[:kk-1]; fallthrough: result[offset] = c *)
          append (Some (firstn (kk - 1) s)) [c]
        else if negb (is_nil result) then append result [c]
        else result in
      unescape_loop s xs' (S kk) result (negb slash && Byte.eqb c SLASH)
  end.

Definition Unescape (s : bytes) : bytes :=
  match unescape_loop s s 0 None false with
  | Some result => result
  | None => s
  end.

(** ** Eval, EvalArgs and Resolver.Recurse

    A [Handler] is a Go closure and a handler's result an [interface{}];
    the evaluator only applies handlers ([call]), builds error handlers
    ([ErrorHandler]) and tests whether a value is a [Handler].  Handlers
    and the consumer's own values are therefore left abstract. *)
Section Nice.

Variable Handler : Type.
Variable Data : Type.

(** [Error] is the package's error type; other errors come from handlers. *)
Inductive error :=
| Error (msg : string)
| HandlerError (d : Data).

(** The dynamic values an [interface{}] result can hold. *)
Inductive value :=
| VNil
| Raw (b : bytes)
| VHandler (h : Handler)
| VData (d : Data).

Definition Resolver := bytes -> Handler.

(** [h(r, args)]; [None] is a nil args slice. *)
Variable call : Handler -> Resolver -> option bytes -> value * option error.

Variable ErrorHandler : error -> Handler.

(** Where the scan loop of [Eval] stops. *)
Inductive scan_result :=
| ScanPipe (kk : nat)     (* a pipe at nesting 1, at index kk of s *)
| ScanClose               (* nesting dropped to 0 *)
| ScanEnd (nesting : Z).  (* kk reached len(s)-1 *)

(** The [for kk := 1; kk < len(s)-1; kk++] loop of [Eval]; [xs] is
    [s[kk:len(s)-1]]. *)
Fixpoint eval_scan (xs : bytes) (kk : nat) (nesting : Z) : scan_result :=
  match xs with
  | [] => ScanEnd nesting
  | c :: xs' =>
      if Byte.eqb c SLASH then
        match xs' with
        | [] => ScanEnd nesting
        | _ :: xs'' => eval_scan xs'' (S (S kk)) nesting
        end
      else if Byte.eqb c PIPE && (nesting =? 1) then ScanPipe kk
      else if Byte.eqb c OPEN then eval_scan xs' (S kk) (nesting + 1)
      else if Byte.eqb c CLOSE then
        if nesting - 1 =? 0 then ScanClose
        else eval_scan xs' (S kk) (nesting - 1)
      else eval_scan xs' (S kk) nesting
  end.

(** Go's [Eval] ([Eval] is a Rocq keyword). *)
Definition Eval_ (r : Resolver) (s : bytes) : value * option error :=
  match s with
  | [] => (Raw s, None)
  | c :: _ =>
      if negb (Byte.eqb c OPEN) then (Raw s, None)
      else if negb (Byte.eqb (last s c) CLOSE) then
        (VNil, Some (Error "nice: missing )"))
      else
        match eval_scan (slice s 1 (List.length s - 1)) 1 1 with
        | ScanPipe kk =>
            call (r (slice s 1 kk)) r (Some (slice s (S kk) (List.length s - 1)))
        | ScanClose => (VNil, Some (Error "nice: mismatched )"))
        | ScanEnd nesting =>
            if negb (nesting =? 1) then
              (VNil, Some (Error "nice: mismatched ("))
            else call (r (slice s 1 (List.length s - 1))) r None
        end
  end.

(** [Resolver.Recurse]: [r.Recurse] is itself a [Resolver]. *)
Definition Recurse (r : Resolver) (name : bytes) : Handler :=
  if (0 <? List.length name)%nat && negb (Byte.eqb (hd x00 name) OPEN) then r name
  else
    let '(v, err) := Eval_ r name in
    match err with
    | Some e => ErrorHandler e
    | None =>
        match v with
        | VHandler h => h
        | _ => ErrorHandler (Error "nice: not a function")
        end
    end.

(** State of the [EvalArgs] loop when it stops. *)
Inductive args_state :=
| ArgsAbort (e : error)
| ArgsDone (nesting : Z) (offset : nat) (result : list value).

(** The [for kk := 0; kk < len(s); kk++] loop of [EvalArgs]; [xs] is
    [s[kk:]]. *)
Fixpoint args_loop (r : Resolver) (s xs : bytes) (kk : nat) (nesting : Z)
  (offset : nat) (result : list value) : args_state :=
  match xs with
  | [] => ArgsDone nesting offset result
  | c :: xs' =>
      if Byte.eqb c SLASH then
        match xs' with
        | [] => ArgsDone nesting offset result
        | _ :: xs'' => args_loop r s xs'' (S (S kk)) nesting offset result
        end
      else if Byte.eqb c PIPE && (nesting =? 0) then
        let '(v, err) := Eval_ r (slice s offset kk) in
        match err with
        | Some e => ArgsAbort e
        | None => args_loop r s xs' (S kk) nesting (S kk) (result ++ [v])
        end
      else if Byte.eqb c OPEN then
        args_loop r s xs' (S kk) (nesting + 1) offset result
      else if Byte.eqb c CLOSE then
        if nesting - 1 <? 0 then ArgsAbort (Error "nice: mismatched )")
        else args_loop r s xs' (S kk) (nesting - 1) offset result
      else args_loop r s xs' (S kk) nesting offset result
  end.

(** The returned slice is [None] when nil. *)
Definition EvalArgs (r : Resolver) (s : option bytes)
  : option (list value) * option error :=
  match s with
  | None => (None, None)
  | Some s =>
      match args_loop r s s 0 0 0 [] with
      | ArgsAbort e => (None, Some e)
      | ArgsDone nesting offset result =>
          if negb (nesting =? 0) then (None, Some (Error "nice: mismatched ("))
          else
            let '(v, err) := Eval_ r (slice_from s offset) in
            match err with
            | Some e => (None, Some e)
            | None => (Some (result ++ [v]), None)
            end
      end
  end.

End Nice.

Arguments VNil {Handler Data}.
Arguments Raw {Handler Data} b.
Arguments VHandler {Handler Data} h.
Arguments VData {Handler Data} d.
Arguments HandlerError {Data} d.
Arguments Error {Data} msg.
Arguments Eval_ {Handler Data} call r s.
Arguments ArgsAbort {Handler Data} e.
Arguments ArgsDone {Handler Data} nesting offset result.
Arguments args_loop {Handler Data} call r s xs kk nesting offset result.
Arguments Recurse {Handler Data} call ErrorHandler r name.
Arguments EvalArgs {Handler Data} call r s.

(** * Package json (src/json/json.go)

    The codec's handlers are the five named functions of the package, the
    closure [Resolve] returns for an unknown name, and the closures of
    [nice.ErrorHandler].  A handler that evaluates its arguments does so
    through [EvalArgs], which calls handlers again; the dispatcher
    [json_invoke] below therefore takes a fuel bound.  Running out of fuel
    is not a behaviour of the Go code: every statement about it assumes
    enough fuel.  [strconv] is outside the repository: its number
    formatting and parsing are parameters. *)

Definition bs (s : string) : bytes := list_byte_of_string s.

Fixpoint bytes_eqb (a b : bytes) : bool :=
  match a, b with
  | [], [] => true
  | x :: a', y :: b' => Byte.eqb x y && bytes_eqb a' b'
  | _, _ => false
  end.

Local Set Warnings "-register-all".

Section Json.

Variable float : Type.
(** [strconv.FormatInt(int64(v), 10)] and [strconv.FormatFloat(v, 'E', -1, 64)]. *)
Variable FormatInt : Z -> bytes.
Variable FormatFloat : float -> bytes.
(** [strconv.ParseFloat(s, 64)]; its error is given by its message. *)
Variable ParseFloat : bytes -> float * option string.

Inductive jhandler :=
| HNull | HString | HNumber | HArray | HMap   (* evalNull, ..., evalMap *)
| HUnknown (name : bytes)   (* the closure Resolve returns for other names *)
| HError (e : error jdata)  (* nice.ErrorHandler(e) *)
with jdata :=
| JString (s : bytes)                           (* string *)
| JFloat (f : float)                            (* float64 *)
| JArray (l : option (list (value jhandler jdata)))  (* []interface{}, None = nil *)
| JMap (m : list (bytes * value jhandler jdata))  (* map[string]interface{} *)
| JErr (msg : string).                          (* errors.New(msg) *)

Definition jvalue := value jhandler jdata.
Definition jerror := error jdata.
Definition invoker :=
  jhandler -> Resolver jhandler -> option bytes -> jvalue * option jerror.

Definition new_error (msg : string) : jerror := HandlerError (JErr msg).

Definition Resolve (name : bytes) : jhandler :=
  if bytes_eqb name (bs "json:null") then HNull
  else if bytes_eqb name (bs "json:string") then HString
  else if bytes_eqb name (bs "json:number") then HNumber
  else if bytes_eqb name (bs "json:array") then HArray
  else if bytes_eqb name (bs "json:map") then HMap
  else HUnknown name.

Definition evalNull (r : Resolver jhandler) (args : option bytes)
  : jvalue * option jerror := (VNil, None).

Definition evalString (inv : invoker) (r : Resolver jhandler) (args : option bytes)
  : jvalue * option jerror :=
  let '(values, err) := EvalArgs inv r args in
  match err with
  | Some e => (VNil, Some e)
  | None =>
      match values with
      | Some [arg] =>
          match arg with
          | Raw arg => (VData (JString (Unescape arg)), None)
          | _ => (VNil, Some (new_error "json: incorrect type"))
          end
      | _ => (VNil, Some (new_error "json: incorrect number of args"))
      end
  end.

Definition evalNumber (inv : invoker) (r : Resolver jhandler) (args : option bytes)
  : jvalue * option jerror :=
  let '(v, err) := evalString inv r args in
  match err with
  | None =>
      match v with
      | VData (JString s) =>
          let '(f, perr) := ParseFloat s in
          (VData (JFloat f), option_map new_error perr)
      | _ => (VNil, None)  (* unreachable: a nil error comes with a string *)
      end
  | Some e => (VNil, Some e)
  end.

Definition evalArray (inv : invoker) (r : Resolver jhandler) (args : option bytes)
  : jvalue * option jerror :=
  let '(vs, err) := EvalArgs inv r args in (VData (JArray vs), err).

(** [m[k] = x] on a Go map held as an association list with distinct keys. *)
Definition map_insert (k : bytes) (x : jvalue) (m : list (bytes * jvalue))
  : list (bytes * jvalue) :=
  (k, x) :: filter (fun p => negb (bytes_eqb (fst p) k)) m.

(** The [for kk := 0; kk < len(v); kk += 2] loop of [evalMap]; [rest] is
    [v[kk:]].  The body reads [v[0]] and [v[1]], as the source does. *)
Fixpoint evalMap_loop (v : list jvalue) (rest : list jvalue)
  (result : list (bytes * jvalue)) : jvalue * option jerror :=
  match rest with
  | _ :: _ :: rest' =>
      match nth 0 v VNil with
      | Raw key =>
          evalMap_loop v rest' (map_insert (Unescape key) (nth 1 v VNil) result)
      | _ => (VNil, Some (new_error "json:map allows string keys only"))
      end
  | _ => (VData (JMap result), None)
  end.

Definition evalMap (inv : invoker) (r : Resolver jhandler) (args : option bytes)
  : jvalue * option jerror :=
  let '(v, err) := EvalArgs inv r args in
  match err with
  | Some e => (VNil, Some e)
  | None =>
      let v := match v with Some l => l | None => [] end in
      if negb (Nat.even (List.length v)) then
        (VNil, Some (new_error "json:map expects even number of args"))
      else evalMap_loop v v []
  end.

(** Applying a handler of this package: [h(r, args)]. *)
Fixpoint json_invoke (fuel : nat) (h : jhandler) (r : Resolver jhandler)
  (args : option bytes) : jvalue * option jerror :=
  match fuel with
  | O => (VNil, Some (new_error "out of fuel"))
  | S fuel =>
      match h with
      | HNull => evalNull r args
      | HString => evalString (json_invoke fuel) r args
      | HNumber => evalNumber (json_invoke fuel) r args
      | HArray => evalArray (json_invoke fuel) r args
      | HMap => evalMap (json_invoke fuel) r args
      | HUnknown name =>
          (VNil, Some (new_error ("json: unknown type: " ++ string_of_list_byte name)))
      | HError e => (VNil, Some e)
      end
  end.

(** [Decode]: [nice.Eval(nice.Resolver(Resolve).Recurse, b)]. *)
Definition Decode (fuel : nat) (b : bytes) : jvalue * option jerror :=
  Eval_ (json_invoke fuel) (Recurse (json_invoke fuel) HError Resolve) b.

(** The Go values [EncodeTo] switches on; a map is given in the order
    its range loop visits it. *)
Inductive gvalue :=
| GNil
| GInt (z : Z) | GInt32 (z : Z) | GInt64 (z : Z)
| GFloat32 (f : float) | GFloat64 (f : float)  (* float32 as its float64 value *)
| GString (s : bytes)
| GSlice (l : list gvalue)
| GMap (m : list (bytes * gvalue))
| GOther.                                       (* any other type *)

(** [call(w, name, args...)]: the bytes it writes. *)
Definition call (name : bytes) (args : list bytes) : bytes :=
  [OPEN] ++ name ++ flat_map (fun arg => [PIPE] ++ arg) args ++ [CLOSE].

(** [EncodeTo(w, v)]: the bytes written to [w] and the error returned. *)
Fixpoint EncodeTo (v : gvalue) : bytes * option jerror :=
  match v with
  | GNil => (call (bs "json:null") [], None)
  | GInt z | GInt32 z | GInt64 z => (call (bs "json:number") [FormatInt z], None)
  | GFloat32 f | GFloat64 f => (call (bs "json:number") [FormatFloat f], None)
  | GString s => (call (bs "json:string") [Escape s], None)
  | GSlice l =>
      let fix elts (l : list gvalue) : bytes * option jerror :=
        match l with
        | [] => ([], None)
        | elt :: l' =>
            let '(b, err) := EncodeTo elt in
            match err with
            | Some e => ([PIPE] ++ b, Some e)
            | None => let '(b', err') := elts l' in ([PIPE] ++ b ++ b', err')
            end
        end in
      let '(b, err) := elts l in
      match err with
      | Some e => (bs "(json:array" ++ b, Some e)
      | None => (bs "(json:array" ++ b ++ [CLOSE], None)
      end
  | GMap m =>
      let fix elts (m : list (bytes * gvalue)) : bytes * option jerror :=
        match m with
        | [] => ([], None)
        | (k, elt) :: m' =>
            let '(b, err) := EncodeTo elt in
            match err with
            | Some e => ([PIPE] ++ Escape k ++ [PIPE] ++ b, Some e)
            | None =>
                let '(b', err') := elts m' in
                ([PIPE] ++ Escape k ++ [PIPE] ++ b ++ b', err')
            end
        end in
      let '(b, err) := elts m in
      match err with
      | Some e => (bs "(json:map" ++ b, Some e)
      | None => (bs "(json:map" ++ b ++ [CLOSE], None)
      end
  | GOther => ([], Some (new_error "json: unknown type"))
  end.

(** [Encode]: the bytes, or nil and the error. *)
Definition Encode (v : gvalue) : option bytes * option jerror :=
  let '(b, err) := EncodeTo v in
  match err with
  | Some e => (None, Some e)
  | None => (Some b, None)
  end.

End Json.

Arguments HNull {float}.
Arguments HString {float}.
Arguments HNumber {float}.
Arguments HArray {float}.
Arguments HMap {float}.
Arguments HUnknown {float} name.
Arguments HError {float} e.
Arguments JString {float} s.
Arguments JFloat {float} f.
Arguments JArray {float} l.
Arguments JMap {float} m.
Arguments JErr {float} msg.
Arguments new_error {float} msg.
Arguments Resolve {float} name.
Arguments evalNull {float} r args.
Arguments evalString {float} inv r args.
Arguments evalNumber {float} ParseFloat inv r args.
Arguments evalArray {float} inv r args.
Arguments map_insert {float} k x m.
Arguments evalMap_loop {float} v rest result.
Arguments evalMap {float} inv r args.
Arguments json_invoke {float} ParseFloat fuel h r args.
Arguments Decode {float} ParseFloat fuel b.
Arguments GNil {float}.
Arguments GInt {float} z.
Arguments GInt32 {float} z.
Arguments GInt64 {float} z.
Arguments GFloat32 {float} f.
Arguments GFloat64 {float} f.
Arguments GString {float} s.
Arguments GSlice {float} l.
Arguments GMap {float} m.
Arguments GOther {float}.
Arguments EncodeTo {float} FormatInt FormatFloat v.
Arguments Encode {float} FormatInt FormatFloat v.

(** * Proofs *)

(** ** Escape and Unescape as list functions *)

Definition plain (c : byte) : bool := negb (special c).

Fixpoint escape_spec (xs : bytes) : bytes :=
  match xs with
  | [] => []
  | c :: t => if special c then SLASH :: c :: escape_spec t else c :: escape_spec t
  end.

Fixpoint unescape_spec (xs : bytes) : bytes :=
  match xs with
  | [] => []
  | c :: t =>
      if Byte.eqb c SLASH then
        match t with
        | [] => []
        | d :: t' => d :: unescape_spec t'
        end
      else c :: unescape_spec t
  end.

Lemma eqb_SLASH_special c : Byte.eqb c SLASH = true -> special c = true.
Proof. intro H. apply Byte.byte_dec_bl in H. subst. reflexivity. Qed.

Lemma escape_spec_plain xs : forallb plain xs = true -> escape_spec xs = xs.
Proof.
  induction xs as [|c t IH]; simpl; [reflexivity|].
  unfold plain. destruct (special c); simpl; [discriminate|].
  intro H. rewrite IH; auto.
Qed.

Lemma escape_spec_app xs ys :
  escape_spec (xs ++ ys) = escape_spec xs ++ escape_spec ys.
Proof.
  induction xs as [|c t IH]; simpl; [reflexivity|].
  rewrite IH. destruct (special c); reflexivity.
Qed.

Lemma unescape_escape_spec xs : unescape_spec (escape_spec xs) = xs.
Proof.
  induction xs as [|c t IH]; simpl; [reflexivity|].
  destruct (special c) eqn:Hs; simpl.
  - rewrite IH. reflexivity.
  - destruct (Byte.eqb c SLASH) eqn:E.
    + apply eqb_SLASH_special in E. congruence.
    + rewrite IH. reflexivity.
Qed.

Lemma escape_loop_some s : forall xs kk r,
  escape_loop s xs kk (Some r) = Some (r ++ escape_spec xs).
Proof.
  induction xs as [|c t IH]; intros kk r; simpl.
  - rewrite app_nil_r. reflexivity.
  - destruct (special c); simpl; unfold append; rewrite IH; f_equal;
      rewrite <- !app_assoc; reflexivity.
Qed.

Lemma escape_loop_none s : forall xs pre,
  s = pre ++ xs -> forallb plain pre = true ->
  escape_loop s xs (List.length pre) None =
    if forallb plain xs then None else Some (escape_spec s).
Proof.
  induction xs as [|c t IH]; intros pre Hs Hpre; simpl; [reflexivity|].
  unfold plain at 1. destruct (special c) eqn:Hc; simpl.
  - unfold append. rewrite escape_loop_some. f_equal.
    rewrite Hs, firstn_app, Nat.sub_diag, firstn_all. simpl.
    rewrite escape_spec_app, (escape_spec_plain pre Hpre). simpl.
    rewrite Hc, app_nil_r, <- !app_assoc. reflexivity.
  - specialize (IH (pre ++ [c])).
    rewrite length_app in IH. simpl in IH. rewrite Nat.add_1_r in IH.
    apply IH.
    + rewrite Hs, <- app_assoc. reflexivity.
    + rewrite forallb_app, Hpre. simpl. unfold plain. rewrite Hc. reflexivity.
Qed.

Lemma Escape_spec s : Escape s = escape_spec s.
Proof.
  unfold Escape.
  pose proof (escape_loop_none s s [] eq_refl eq_refl) as E. simpl in E.
  rewrite E.
  destruct (forallb plain s) eqn:H; [|reflexivity].
  symmetry. apply escape_spec_plain. exact H.
Qed.

Lemma append_Some r xs : append (Some r) xs = Some (r ++ xs).
Proof. reflexivity. Qed.

Lemma unescape_loop_some s : forall xs kk r,
  unescape_loop s xs kk (Some r) false = Some (r ++ unescape_spec xs) /\
  unescape_loop s xs kk (Some r) true =
    Some (r ++ match xs with [] => [] | d :: t => d :: unescape_spec t end).
Proof.
  induction xs as [|c t IH]; intros kk r; simpl.
  - rewrite app_nil_r. split; reflexivity.
  - assert (Hc : unescape_loop s t (S kk) (append (Some r) [c]) false =
                 Some (r ++ c :: unescape_spec t)).
    { rewrite append_Some.
      transitivity (Some ((r ++ [c]) ++ unescape_spec t)).
      - apply IH.
      - rewrite <- app_assoc. reflexivity. }
    split.
    + destruct (Byte.eqb c SLASH) eqn:E; simpl.
      * apply (IH (S kk) r).
      * exact Hc.
    + exact Hc.
Qed.

Lemma unescape_loop_escaped s : forall x pre,
  s = pre ++ escape_spec x -> forallb plain pre = true ->
  unescape_loop s (escape_spec x) (List.length pre) None false =
    if forallb plain x then None else Some (pre ++ x).
Proof.
  induction x as [|c t IH]; intros pre Hs Hpre; simpl; [reflexivity|].
  unfold plain at 1. destruct (special c) eqn:Hc; simpl.
  - rewrite Nat.sub_0_r, append_Some.
    replace (firstn (List.length pre) s) with pre
      by (rewrite Hs, firstn_app, Nat.sub_diag, firstn_all; simpl;
          rewrite app_nil_r; reflexivity).
    transitivity (Some ((pre ++ [c]) ++ unescape_spec (escape_spec t))).
    + apply unescape_loop_some.
    + rewrite unescape_escape_spec, <- app_assoc. reflexivity.
  - assert (E : Byte.eqb c SLASH = false).
    { destruct (Byte.eqb c SLASH) eqn:E; [|reflexivity].
      apply eqb_SLASH_special in E. congruence. }
    rewrite E. simpl.
    specialize (IH (pre ++ [c])).
    rewrite length_app in IH. simpl in IH. rewrite Nat.add_1_r in IH.
    rewrite IH.
    + destruct (forallb plain t); [reflexivity|]. rewrite <- app_assoc. reflexivity.
    + rewrite Hs, <- app_assoc. simpl. rewrite Hc. reflexivity.
    + rewrite forallb_app, Hpre. simpl. unfold plain. rewrite Hc. reflexivity.
Qed.

(** C2: for every byte sequence [x], [Unescape (Escape x) = x]. *)
Theorem Unescape_Escape (x : bytes) : Unescape (Escape x) = x.
Proof.
  rewrite Escape_spec. unfold Unescape.
  pose proof (unescape_loop_escaped (escape_spec x) x [] eq_refl eq_refl) as E.
  simpl in E. rewrite E.
  destruct (forallb plain x) eqn:H; [|reflexivity].
  apply escape_spec_plain. exact H.
Qed.

(** ** The scan of Eval *)

(** Induction that steps over an escape and the byte it protects. *)
Lemma bytes_ind2 (P : bytes -> Prop) :
  P [] -> (forall c, P [c]) ->
  (forall c d t, P t -> P (d :: t) -> P (c :: d :: t)) ->
  forall xs, P xs.
Proof.
  intros H0 H1 H2 xs.
  assert (H : P xs /\ forall c, P (c :: xs)).
  { induction xs as [|a t [IHa IHb]]; split; auto. }
  apply H.
Qed.

Ltac byte_cases :=
  repeat match goal with
  | |- context [Byte.eqb ?c ?b] =>
      is_var c; destruct (Byte.eqb c b) eqn:?
  end; simpl.

(** Once the scan stops at a pipe or at nesting 0, later bytes are not read. *)
Lemma eval_scan_app_stop : forall xs ys kk n,
  match eval_scan xs kk n with
  | ScanEnd _ => True
  | res => eval_scan (xs ++ ys) kk n = res
  end.
Proof.
  intros xs ys. induction xs as [|c|c d t IHt IHdt] using bytes_ind2;
    intros kk n; simpl; [exact I| |].
  - byte_cases; try exact I; try reflexivity;
      destruct (n =? 1); simpl; try reflexivity;
      destruct (n - 1 =? 0); reflexivity.
  - destruct (Byte.eqb c SLASH); [apply IHt|].
    destruct (Byte.eqb c PIPE && (n =? 1)); [reflexivity|].
    destruct (Byte.eqb c OPEN); [apply IHdt|].
    destruct (Byte.eqb c CLOSE); [|apply IHdt].
    destruct (n - 1 =? 0); [reflexivity|apply IHdt].
Qed.

Lemma eval_scan_app_pipe xs ys kk n p :
  eval_scan xs kk n = ScanPipe p -> eval_scan (xs ++ ys) kk n = ScanPipe p.
Proof.
  intro H. pose proof (eval_scan_app_stop xs ys kk n) as E.
  rewrite H in E. exact E.
Qed.

Lemma eval_scan_app_close xs ys kk n :
  eval_scan xs kk n = ScanClose -> eval_scan (xs ++ ys) kk n = ScanClose.
Proof.
  intro H. pose proof (eval_scan_app_stop xs ys kk n) as E.
  rewrite H in E. exact E.
Qed.

(** A trailing escape byte at the end of the scanned range changes nothing. *)
Lemma eval_scan_app_slash : forall xs kk n m,
  eval_scan xs kk n = ScanEnd m -> eval_scan (xs ++ [SLASH]) kk n = ScanEnd m.
Proof.
  induction xs as [|c|c d t IHt IHdt] using bytes_ind2; intros kk n m H;
    simpl in *.
  - exact H.
  - revert H. byte_cases; try discriminate; try (intro H; exact H);
      destruct (n =? 1); simpl; try discriminate; try (intro H; exact H);
      destruct (n - 1 =? 0); discriminate || (intro H; exact H).
  - revert H.
    destruct (Byte.eqb c SLASH); [apply IHt|].
    destruct (Byte.eqb c PIPE && (n =? 1)); [discriminate|].
    destruct (Byte.eqb c OPEN); [apply IHdt|].
    destruct (Byte.eqb c CLOSE); [|apply IHdt].
    destruct (n - 1 =? 0); [discriminate|apply IHdt].
Qed.

Lemma firstn_prefix (a b : bytes) : firstn (List.length a) (a ++ b) = a.
Proof.
  rewrite firstn_app, Nat.sub_diag, firstn_all. simpl. apply app_nil_r.
Qed.

Lemma skipn_prefix (a b : bytes) : skipn (List.length a) (a ++ b) = b.
Proof. induction a as [|x a IH]; simpl; auto. Qed.

Lemma last_cons_default (c : byte) t d1 d2 : last (c :: t) d1 = last (c :: t) d2.
Proof.
  revert c. induction t as [|x t IH]; intro c; [reflexivity|].
  change (last (x :: t) d1 = last (x :: t) d2). apply IH.
Qed.

(** The scan of a byte range with no special byte runs to its end. *)
Lemma eval_scan_plain : forall xs ys kk n,
  forallb plain xs = true ->
  eval_scan (xs ++ ys) kk n = eval_scan ys (kk + List.length xs) n.
Proof.
  induction xs as [|c t IH]; intros ys kk n H; simpl.
  - rewrite Nat.add_0_r. reflexivity.
  - simpl in H. apply andb_prop in H as [Hc Ht].
    unfold plain, special in Hc.
    destruct (Byte.eqb c SLASH); [discriminate|].
    destruct (Byte.eqb c OPEN); [discriminate|].
    destruct (Byte.eqb c CLOSE); [discriminate|].
    destruct (Byte.eqb c PIPE); [discriminate|]. simpl.
    rewrite IH by exact Ht. f_equal. lia.
Qed.

Section EvalFacts.

Context {Handler Data : Type}.
Variable call : Handler -> Resolver Handler -> option bytes ->
  value Handler Data * option (error Data).

(** [Eval] on [(body)]: the scan of [body] decides the outcome. *)
Lemma Eval_bracketed r body :
  Eval_ call r (OPEN :: body ++ [CLOSE]) =
  match eval_scan body 1 1 with
  | ScanPipe kk =>
      call (r (slice (OPEN :: body ++ [CLOSE]) 1 kk)) r
        (Some (slice (OPEN :: body ++ [CLOSE]) (S kk) (S (List.length body))))
  | ScanClose => (VNil, Some (Error "nice: mismatched )"))
  | ScanEnd nesting =>
      if negb (nesting =? 1) then (VNil, Some (Error "nice: mismatched ("))
      else call (r body) r None
  end.
Proof.
  unfold Eval_.
  assert (Hl : last (OPEN :: body ++ [CLOSE]) OPEN = CLOSE).
  { rewrite app_comm_cons. apply last_last. }
  assert (Hn : (List.length (OPEN :: body ++ [CLOSE]) - 1 = S (List.length body))%nat).
  { simpl. rewrite length_app. simpl. lia. }
  assert (Hb : slice (OPEN :: body ++ [CLOSE]) 1 (S (List.length body)) = body).
  { unfold slice. simpl. rewrite Nat.sub_0_r. apply firstn_prefix. }
  rewrite Hl, Hn, Hb. reflexivity.
Qed.

(** The helper behind C1 and C5: a call split at its first top-level pipe. *)
Lemma Eval_at_pipe r name rest :
  eval_scan (name ++ [PIPE]) 1 1 = ScanPipe (S (List.length name)) ->
  Eval_ call r (OPEN :: (name ++ PIPE :: rest) ++ [CLOSE]) =
  call (r name) r (Some rest).
Proof.
  intro H.
  rewrite Eval_bracketed.
  pose proof (eval_scan_app_pipe _ rest _ _ _ H) as H'.
  rewrite <- app_assoc in H'. simpl in H'. rewrite H'.
  f_equal; [f_equal|f_equal].
  - unfold slice. simpl. rewrite Nat.sub_0_r, <- app_assoc. apply firstn_prefix.
  - unfold slice.
    change (skipn (S (S (List.length name))) (OPEN :: (name ++ PIPE :: rest) ++ [CLOSE]))
      with (skipn (S (List.length name)) ((name ++ PIPE :: rest) ++ [CLOSE])).
    replace (S (List.length (name ++ PIPE :: rest)) - S (S (List.length name)))%nat
      with (List.length rest)
      by (rewrite length_app; simpl; lia).
    rewrite <- app_assoc.
    change (skipn (S (List.length name)) (name ++ (PIPE :: rest) ++ [CLOSE]))
      with (skipn (1 + List.length name) (name ++ (PIPE :: rest) ++ [CLOSE])).
    rewrite <- skipn_skipn, skipn_prefix. simpl.
    apply firstn_prefix.
Qed.

End EvalFacts.

(** ** Claims on Eval, Recurse and Unescape *)

Section EvalClaims.

Context {Handler Data : Type}.
Variable call : Handler -> Resolver Handler -> option bytes ->
  value Handler Data * option (error Data).
Variable ErrorHandler : error Data -> Handler.

(** C1: on [( name | rest )], when the scan of [name] reaches the pipe
    at nesting 1 (no earlier top-level pipe, nesting never 0, the pipe
    not escaped), [Eval] returns what the handler [r name] returns on the
    raw bytes [rest]; [rest] is never scanned, so a malformed
    sub-expression in it produces no error by itself. *)
Theorem Eval_call_lazy r name rest :
  eval_scan (name ++ [PIPE]) 1 1 = ScanPipe (S (List.length name)) ->
  Eval_ call r (OPEN :: name ++ PIPE :: rest ++ [CLOSE]) =
  call (r name) r (Some rest).
Proof.
  intro H.
  replace (name ++ PIPE :: rest ++ [CLOSE])
    with ((name ++ PIPE :: rest) ++ [CLOSE])
    by (rewrite <- app_assoc; reflexivity).
  apply Eval_at_pipe. exact H.
Qed.

(** C5: [(name)] passes nil args, [(name|)] passes empty args; [EvalArgs]
    maps nil to nil and the empty slice to the one value [Raw ""]. *)
Theorem absent_vs_empty_args r name :
  forallb plain name = true ->
  Eval_ call r (OPEN :: name ++ [CLOSE]) = call (r name) r None /\
  Eval_ call r (OPEN :: name ++ [PIPE; CLOSE]) = call (r name) r (Some []) /\
  EvalArgs call r None = (None, None) /\
  EvalArgs call r (Some []) = (Some [Raw []], None).
Proof.
  intro H. split; [|split; [|split; reflexivity]].
  - rewrite Eval_bracketed.
    rewrite <- (app_nil_r name) at 1. rewrite eval_scan_plain by exact H.
    reflexivity.
  - replace (OPEN :: name ++ [PIPE; CLOSE])
      with (OPEN :: (name ++ PIPE :: []) ++ [CLOSE])
      by (rewrite <- app_assoc; reflexivity).
    apply Eval_at_pipe.
    rewrite eval_scan_plain by exact H. reflexivity.
Qed.

(** C6: a close bracket that drops the nesting to 0 before any top-level
    pipe gives "nice: mismatched )" (as for "(x))"); a scan that ends
    with no top-level pipe and nesting other than 1 gives
    "nice: mismatched (". *)
Theorem Eval_bracket_mismatch r :
  (forall p q, eval_scan (p ++ [CLOSE]) 1 1 = ScanClose ->
     Eval_ call r (OPEN :: p ++ CLOSE :: q ++ [CLOSE]) =
     (VNil, Some (Error "nice: mismatched )"))) /\
  (forall body n, eval_scan body 1 1 = ScanEnd n -> n <> 1 ->
     Eval_ call r (OPEN :: body ++ [CLOSE]) =
     (VNil, Some (Error "nice: mismatched ("))) /\
  Eval_ call r [OPEN; x78; CLOSE; CLOSE] =
     (VNil, Some (Error "nice: mismatched )")).
Proof.
  split; [|split].
  - intros p q H.
    replace (p ++ CLOSE :: q ++ [CLOSE]) with (((p ++ [CLOSE]) ++ q) ++ [CLOSE])
      by (rewrite <- !app_assoc; reflexivity).
    rewrite Eval_bracketed, (eval_scan_app_close _ q _ _ H). reflexivity.
  - intros body n H Hn.
    rewrite Eval_bracketed, H.
    destruct (n =? 1) eqn:E; [apply Z.eqb_eq in E; contradiction|reflexivity].
  - reflexivity.
Qed.

(** C8: an empty input, or one whose first byte is not "(", is returned
    as [Raw] with no error. *)
Theorem Eval_atomic r x :
  x = [] \/ hd x00 x <> OPEN -> Eval_ call r x = (Raw x, None).
Proof.
  intros [H|H]; [subst; reflexivity|].
  destruct x as [|c t]; [reflexivity|]. simpl in H. simpl.
  destruct (Byte.eqb c OPEN) eqn:E; [|reflexivity].
  apply Byte.byte_dec_bl in E. contradiction.
Qed.
Theorem Eval_missing_close r s :
  s <> [] -> hd x00 s = OPEN -> last s x00 <> CLOSE ->
  Eval_ call r s = (VNil, Some (Error "nice: missing )")).
Proof.
  intros Hne Hhd Hlast.
  destruct s as [|c t]; [contradiction|]. simpl in Hhd. subst c.
  unfold Eval_. cbv beta iota. change (Byte.eqb OPEN OPEN) with true.
  cbv beta iota.
  rewrite (last_cons_default OPEN t OPEN x00).
  destruct (Byte.eqb (last (OPEN :: t) x00) CLOSE) eqn:E; [|reflexivity].
  apply Byte.byte_dec_bl in E. contradiction.
Qed.

(** C10: an escape byte just before the final ")" does not protect it:
    when the scan of [body] finds no top-level pipe and ends at nesting
    1, [(body\)] calls the handler for [body\] with nil args; in
    particular "(\)" calls [r "\"]. *)
Theorem Eval_escaped_final_close r :
  (forall body, eval_scan body 1 1 = ScanEnd 1 ->
     Eval_ call r (OPEN :: body ++ [SLASH; CLOSE]) =
     call (r (body ++ [SLASH])) r None) /\
  Eval_ call r [OPEN; SLASH; CLOSE] = call (r [SLASH]) r None.
Proof.
  split; [|reflexivity].
  intros body H.
  replace (body ++ [SLASH; CLOSE]) with ((body ++ [SLASH]) ++ [CLOSE])
    by (rewrite <- app_assoc; reflexivity).
  rewrite Eval_bracketed, (eval_scan_app_slash _ _ _ _ H). reflexivity.
Qed.

(** C7 (divergence): [Recurse] delegates only non-empty names that do
    not start with "("; the empty name is evaluated, gives [Raw ""] and
    so the "nice: not a function" error handler, not [r ""]. *)
Theorem Recurse_empty_name r :
  Recurse call ErrorHandler r [] = ErrorHandler (Error "nice: not a function").
Proof. reflexivity. Qed.

End EvalClaims.

(** C4 (divergence): a dangling final escape is kept when it is the only
    escape byte ("a\" is returned unchanged) but dropped once an earlier
    escape has made [Unescape] copy ("\(a\" gives "(a"). *)
Theorem Unescape_dangling_escape :
  Unescape [x61; SLASH] = [x61; SLASH] /\
  Unescape [SLASH; OPEN; x61; SLASH] = [OPEN; x61].
Proof. split; reflexivity. Qed.

(** ** EvalArgs against the spec's splitting of an argument list *)

(** Induction on bytes where the step may also use the tail of the tail. *)
Lemma bytes_ind_esc (P : bytes -> Prop) :
  P [] ->
  (forall c t, P t -> (forall d t', t = d :: t' -> P t') -> P (c :: t)) ->
  forall xs, P xs.
Proof.
  intros H0 H1 xs.
  assert (H : P xs /\ forall d t', xs = d :: t' -> P t').
  { induction xs as [|a t [IHa IHb]].
    - split; [exact H0|discriminate].
    - split; [apply H1; assumption|].
      intros d t' E. injection E as -> ->. exact IHa. }
  apply H.
Qed.

(** Nesting after an unescaped byte: "(" opens, ")" closes. *)
Definition depth_step (c : byte) (depth : Z) : Z :=
  if Byte.eqb c OPEN then depth + 1
  else if Byte.eqb c CLOSE then depth - 1
  else depth.

(** Follows the spec: the segments of an argument list, split at every
    unescaped pipe at nesting 0; an escape byte keeps the next byte in
    the segment. *)
Fixpoint spec_segments (xs : bytes) (depth : Z) (cur : bytes) : list bytes :=
  match xs with
  | [] => [cur]
  | c :: t =>
      if Byte.eqb c SLASH then
        match t with
        | [] => [cur ++ [c]]
        | d :: t' => spec_segments t' depth (cur ++ [c; d])
        end
      else if Byte.eqb c PIPE && (depth =? 0) then cur :: spec_segments t depth []
      else spec_segments t (depth_step c depth) (cur ++ [c])
  end.

(** Follows the spec: the number of top-level (unescaped, nesting 0) pipes. *)
Fixpoint spec_top_pipes (xs : bytes) (depth : Z) : nat :=
  match xs with
  | [] => O
  | c :: t =>
      if Byte.eqb c SLASH then
        match t with
        | [] => O
        | _ :: t' => spec_top_pipes t' depth
        end
      else if Byte.eqb c PIPE && (depth =? 0) then S (spec_top_pipes t depth)
      else spec_top_pipes t (depth_step c depth)
  end.

Lemma skipn_after (s cur t : bytes) (offset : nat) (x : byte) :
  skipn offset s = cur ++ x :: t ->
  skipn (S (offset + List.length cur)) s = t.
Proof.
  intro H.
  replace (S (offset + List.length cur)) with (S (List.length cur) + offset)%nat
    by lia.
  rewrite <- skipn_skipn, H.
  change (S (List.length cur)) with (1 + List.length cur)%nat.
  rewrite <- skipn_skipn, skipn_prefix. reflexivity.
Qed.

Lemma slice_cur (s cur rest : bytes) (offset : nat) :
  skipn offset s = cur ++ rest ->
  slice s offset (offset + List.length cur) = cur.
Proof.
  intro H. unfold slice. rewrite H.
  replace (offset + List.length cur - offset)%nat with (List.length cur) by lia.
  apply firstn_prefix.
Qed.

Section EvalArgsFacts.

Context {Handler Data : Type}.
Variable call : Handler -> Resolver Handler -> option bytes ->
  value Handler Data * option (error Data).
Variable r : Resolver Handler.
Variable s : bytes.

Definition seg_value (seg : bytes) : value Handler Data := fst (Eval_ call r seg).
Definition seg_ok (seg : bytes) : Prop := snd (Eval_ call r seg) = None.

(** Loop invariant: [cur] is [s[offset:kk]], the segment read so far. *)
Lemma args_loop_segments : forall xs kk nesting offset result cur,
  skipn offset s = cur ++ xs -> kk = (offset + List.length cur)%nat ->
  match args_loop call r s xs kk nesting offset result with
  | ArgsAbort _ => True
  | ArgsDone _ off res =>
      exists pre last_seg,
        spec_segments xs nesting cur = pre ++ [last_seg] /\
        skipn off s = last_seg /\
        res = result ++ map seg_value pre /\
        Forall seg_ok pre /\
        List.length pre = spec_top_pipes xs nesting
  end.
Proof.
  intro xs. pattern xs. revert xs.
  apply bytes_ind_esc; [|intros c t IHt IHtt];
    intros kk nesting offset result cur Hs Hkk; simpl.
  - exists [], cur. rewrite app_nil_r in Hs.
    repeat split; [exact Hs|symmetry; apply app_nil_r|constructor].
  - destruct (Byte.eqb c SLASH) eqn:Esl.
    + destruct t as [|d t'].
      * exists [], (cur ++ [c]).
        repeat split; [exact Hs|symmetry; apply app_nil_r|constructor].
      * apply (IHtt d t' eq_refl).
        -- rewrite Hs, <- app_assoc. reflexivity.
        -- rewrite length_app. simpl. lia.
    + destruct (Byte.eqb c PIPE && (nesting =? 0)) eqn:Epi.
      * subst kk. rewrite (slice_cur s cur (c :: t) offset Hs).
        destruct (Eval_ call r cur) as [v err] eqn:Ev.
        destruct err as [e|]; [exact I|].
        pose proof (IHt (S (offset + List.length cur)) nesting
                      (S (offset + List.length cur)) (result ++ [v]) [])
          as IH.
        rewrite (skipn_after s cur t offset c Hs), Nat.add_0_r in IH.
        specialize (IH eq_refl eq_refl).
        destruct (args_loop call r s t _ nesting _ (result ++ [v]))
          as [e|n off res]; [exact I|].
        destruct IH as (pre & last_seg & Hseg & Hoff & Hres & Hok & Hlen).
        exists (cur :: pre), last_seg. repeat split.
        -- rewrite Hseg. reflexivity.
        -- exact Hoff.
        -- rewrite Hres, <- app_assoc. cbn [map].
           change (seg_value cur) with (fst (Eval_ call r cur)).
           rewrite Ev. reflexivity.
        -- constructor; [|exact Hok].
           change (snd (Eval_ call r cur) = None). rewrite Ev. reflexivity.
        -- simpl. rewrite Hlen. reflexivity.
      * assert (Hstep : forall n',
          (n' = depth_step c nesting) ->
          match args_loop call r s t (S kk) n' offset result with
          | ArgsAbort _ => True
          | ArgsDone _ off res =>
              exists pre last_seg,
                spec_segments t (depth_step c nesting) (cur ++ [c]) =
                  pre ++ [last_seg] /\
                skipn off s = last_seg /\
                res = result ++ map seg_value pre /\
                Forall seg_ok pre /\
                List.length pre = spec_top_pipes t (depth_step c nesting)
          end).
        { intros n' En. subst n'.
          apply IHt.
          - rewrite Hs, <- app_assoc. reflexivity.
          - rewrite length_app. simpl. lia. }
        destruct (Byte.eqb c OPEN) eqn:Eop.
        -- apply Hstep. unfold depth_step. rewrite Eop. reflexivity.
        -- destruct (Byte.eqb c CLOSE) eqn:Ecl.
           ++ destruct (nesting - 1 <? 0); [exact I|].
              apply Hstep. unfold depth_step. rewrite Eop, Ecl. reflexivity.
           ++ apply Hstep. unfold depth_step. rewrite Eop, Ecl. reflexivity.
Qed.

(** C3: nil args give a nil result with no error; when [EvalArgs] on a
    non-nil [s] succeeds it returns one value per top-level segment, that
    is (number of top-level pipes) + 1 values, each the value [Eval]
    gives (with no error) on that segment, left to right. *)
Theorem EvalArgs_segments :
  EvalArgs call r None = (None, None) /\
  forall vs, EvalArgs call r (Some s) = (Some vs, None) ->
    List.length vs = S (spec_top_pipes s 0) /\
    vs = map (fun seg => fst (Eval_ call r seg)) (spec_segments s 0 []) /\
    Forall (fun seg => snd (Eval_ call r seg) = None) (spec_segments s 0 []).
Proof.
  split; [reflexivity|].
  intros vs H. unfold EvalArgs in H.
  pose proof (args_loop_segments s 0 0 0 [] [] eq_refl eq_refl) as Inv.
  destruct (args_loop call r s s 0 0 0 []) as [e|n off res];
    [discriminate|].
  destruct (negb (n =? 0)); [discriminate|].
  destruct (Eval_ call r (slice_from s off)) as [v err] eqn:Ev.
  destruct err as [e|]; [discriminate|].
  injection H as <-.
  destruct Inv as (pre & last_seg & Hseg & Hoff & Hres & Hok & Hlen).
  unfold slice_from in Ev. rewrite Hoff in Ev.
  rewrite Hseg, Hres. simpl. split; [|split].
  - rewrite length_app, length_map, Hlen. simpl. lia.
  - rewrite map_app. simpl. rewrite Ev. reflexivity.
  - apply Forall_app. split; [exact Hok|].
    constructor; [rewrite Ev; reflexivity|constructor].
Qed.

End EvalArgsFacts.

(** ** Instances at concrete inputs

    A handler is the name it was resolved from and returns that name with
    its raw args, so each call is visible in the result. *)

Definition echo_resolver : Resolver bytes := fun name => name.

Definition echo_call (h : bytes) (_ : Resolver bytes) (args : option bytes)
  : value bytes (bytes * option bytes) * option (error (bytes * option bytes)) :=
  (VData (h, args), None).

Lemma Eval_call_lazy_witness :
  eval_scan (bs "ab" ++ [PIPE]) 1 1 = ScanPipe 3 /\
  Eval_ echo_call echo_resolver (OPEN :: bs "ab" ++ PIPE :: bs "(q" ++ [CLOSE]) =
    (VData (bs "ab", Some (bs "(q")), None).
Proof.
  split; [reflexivity|].
  exact (Eval_call_lazy echo_call echo_resolver (bs "ab") (bs "(q") eq_refl).
Defined.

Lemma EvalArgs_segments_witness :
  EvalArgs echo_call echo_resolver (Some (bs "a|(b|c)|\||")) =
    (Some [Raw (bs "a"); VData (bs "b", Some (bs "c")); Raw (bs "\|"); Raw []],
     None) /\
  List.length
    [Raw (bs "a"); VData (bs "b", Some (bs "c")); Raw (bs "\|"); @Raw bytes _ []]
    = S (spec_top_pipes (bs "a|(b|c)|\||") 0).
Proof.
  split; [reflexivity|].
  exact (proj1 (proj2 (EvalArgs_segments echo_call echo_resolver
                         (bs "a|(b|c)|\||")) _ eq_refl)).
Defined.

Lemma absent_vs_empty_args_witness :
  Eval_ echo_call echo_resolver (bs "(name)") = (VData (bs "name", None), None) /\
  Eval_ echo_call echo_resolver (bs "(name|)") =
    (VData (bs "name", Some []), None).
Proof.
  destruct (absent_vs_empty_args echo_call echo_resolver (bs "name") eq_refl)
    as (H1 & H2 & _).
  split; [exact H1|exact H2].
Defined.

Lemma Eval_bracket_mismatch_witness :
  Eval_ echo_call echo_resolver (bs "(x)y)") =
    (VNil, Some (Error "nice: mismatched )")) /\
  Eval_ echo_call echo_resolver (bs "(((x)") =
    (VNil, Some (Error "nice: mismatched (")).
Proof.
  destruct (Eval_bracket_mismatch echo_call echo_resolver) as (H1 & H2 & _).
  split.
  - exact (H1 (bs "x") (bs "y") eq_refl).
  - refine (H2 (bs "((x") 3 eq_refl _). lia.
Defined.

Lemma Eval_atomic_witness :
  Eval_ echo_call echo_resolver (bs "abc") = (Raw (bs "abc"), None).
Proof. apply (Eval_atomic echo_call echo_resolver). right. discriminate. Defined.

Lemma Eval_missing_close_witness :
  Eval_ echo_call echo_resolver (bs "(x") = (VNil, Some (Error "nice: missing )")).
Proof.
  apply (Eval_missing_close echo_call echo_resolver); [discriminate|reflexivity|discriminate].
Defined.

Lemma Eval_escaped_final_close_witness :
  Eval_ echo_call echo_resolver (bs "(a(b)\)") =
    (VData (bs "a(b)\", None), None).
Proof.
  exact (proj1 (Eval_escaped_final_close echo_call echo_resolver)
           (bs "a(b)") eq_refl).
Defined.

(** ** Balanced argument lists *)

(** Walks bytes that stay inside one argument segment: escapes skip a
    byte, brackets move the nesting, which never goes below 0; a pipe
    at nesting 0 or a final dangling escape leaves the segment. *)
Fixpoint seg_walk (xs : bytes) (d : Z) : option Z :=
  match xs with
  | [] => Some d
  | c :: t =>
      if Byte.eqb c SLASH then
        match t with
        | [] => None
        | _ :: t' => seg_walk t' d
        end
      else if Byte.eqb c PIPE && (d =? 0) then None
      else
        let d' := depth_step c d in
        if d' <? 0 then None else seg_walk t d'
  end.

(** The nesting test of [EvalArgs]: never below 0, 0 at the end. *)
Fixpoint args_balanced (xs : bytes) (d : Z) : bool :=
  match xs with
  | [] => d =? 0
  | c :: t =>
      if Byte.eqb c SLASH then
        match t with
        | [] => d =? 0
        | _ :: t' => args_balanced t' d
        end
      else
        let d' := depth_step c d in
        if d' <? 0 then false else args_balanced t d'
  end.

Ltac esc_induction xs :=
  intro xs; pattern xs; revert xs; apply bytes_ind_esc.

Lemma seg_walk_app : forall xs ys d m cur,
  seg_walk xs d = Some m ->
  spec_segments (xs ++ ys) d cur = spec_segments ys m (cur ++ xs) /\
  args_balanced (xs ++ ys) d = args_balanced ys m.
Proof.
  esc_induction xs; [|intros c t IHt IHtt]; intros ys d m cur H; simpl in *.
  - injection H as ->. rewrite app_nil_r. split; reflexivity.
  - destruct (Byte.eqb c SLASH) eqn:Esl.
    + destruct t as [|x t']; [discriminate|].
      destruct (IHtt x t' eq_refl ys d m (cur ++ [c; x]) H) as [H1 H2].
      simpl. rewrite H1, H2. rewrite <- app_assoc. split; reflexivity.
    + destruct (Byte.eqb c PIPE && (d =? 0)) eqn:Epi; [discriminate|].
      destruct (depth_step c d <? 0) eqn:Eneg; [discriminate|].
      destruct (IHt ys _ m (cur ++ [c]) H) as [H1 H2].
      rewrite H1, H2, <- app_assoc. split; reflexivity.
Qed.

Lemma seg_walk_app_some : forall xs ys d m,
  seg_walk xs d = Some m -> seg_walk (xs ++ ys) d = seg_walk ys m.
Proof.
  esc_induction xs; [|intros c t IHt IHtt]; intros ys d m H; simpl in *.
  - injection H as ->. reflexivity.
  - destruct (Byte.eqb c SLASH) eqn:Esl.
    + destruct t as [|x t']; [discriminate|].
      apply (IHtt x t' eq_refl ys d m H).
    + destruct (Byte.eqb c PIPE && (d =? 0)); [discriminate|].
      destruct (depth_step c d <? 0); [discriminate|].
      apply IHt. exact H.
Qed.

Lemma depth_step_shift c k d : depth_step c (k + d) = depth_step c k + d.
Proof. unfold depth_step. destruct (Byte.eqb c OPEN), (Byte.eqb c CLOSE); lia. Qed.

(** A segment that is closed at nesting 0 is also closed deeper down. *)
Lemma seg_walk_shift : forall xs k m d,
  seg_walk xs k = Some m -> 0 <= k -> 0 <= d ->
  seg_walk xs (k + d) = Some (m + d).
Proof.
  esc_induction xs; [|intros c t IHt IHtt]; intros k m d H Hk Hd; simpl in *.
  - injection H as ->. reflexivity.
  - destruct (Byte.eqb c SLASH) eqn:Esl.
    + destruct t as [|x t']; [discriminate|].
      apply (IHtt x t' eq_refl k m d H Hk Hd).
    + destruct (Byte.eqb c PIPE) eqn:Epi; simpl in *.
      * destruct (k =? 0) eqn:Ek; [discriminate|].
        apply Z.eqb_neq in Ek.
        replace (k + d =? 0) with false by (symmetry; apply Z.eqb_neq; lia).
        rewrite depth_step_shift.
        destruct (depth_step c k <? 0) eqn:Eneg; [discriminate|].
        apply Z.ltb_ge in Eneg.
        replace (depth_step c k + d <? 0) with false
          by (symmetry; apply Z.ltb_ge; lia).
        apply IHt; auto.
      * rewrite depth_step_shift.
        destruct (depth_step c k <? 0) eqn:Eneg; [discriminate|].
        apply Z.ltb_ge in Eneg.
        replace (depth_step c k + d <? 0) with false
          by (symmetry; apply Z.ltb_ge; lia).
        apply IHt; auto.
Qed.

Lemma spec_segments_nonempty : forall xs d cur, spec_segments xs d cur <> [].
Proof.
  esc_induction xs; [|intros c t IHt IHtt]; intros d cur; simpl; [discriminate|].
  destruct (Byte.eqb c SLASH).
  - destruct t as [|x t']; [discriminate|]. apply (IHtt x t' eq_refl).
  - destruct (Byte.eqb c PIPE && (d =? 0)); [discriminate|]. apply IHt.
Qed.

Lemma singleton_app_inv {A} (x b : A) pre post :
  [x] = pre ++ b :: post -> pre = [] /\ b = x /\ post = [].
Proof.
  destruct pre as [|p pre]; simpl; intro H.
  - injection H as -> ->. auto.
  - injection H as _ H. destruct pre; discriminate.
Qed.

Lemma depth_step_nonneg_close c n :
  Byte.eqb c OPEN = false -> Byte.eqb c CLOSE = true ->
  depth_step c n = n - 1.
Proof. intros E1 E2. unfold depth_step. rewrite E1, E2. reflexivity. Qed.

Section EvalArgsComplete.

Context {Handler Data : Type}.
Variable call : Handler -> Resolver Handler -> option bytes ->
  value Handler Data * option (error Data).
Variable r : Resolver Handler.
Variable s : bytes.

(** The non-pipe, non-escape step of [args_loop] on balanced input. *)
Lemma args_loop_step (P : args_state Handler Data -> Prop) c t kk nesting offset result :
  Byte.eqb c SLASH = false ->
  Byte.eqb c PIPE && (nesting =? 0) = false ->
  (depth_step c nesting <? 0) = false ->
  P (args_loop call r s t (S kk) (depth_step c nesting) offset result) ->
  P (args_loop call r s (c :: t) kk nesting offset result).
Proof.
  intros Esl Epi Eneg HP. simpl. rewrite Esl, Epi.
  unfold depth_step in *.
  destruct (Byte.eqb c OPEN); [exact HP|].
  destruct (Byte.eqb c CLOSE); [|exact HP].
  rewrite Eneg. exact HP.
Qed.

(** Loop invariant for balanced input whose segments all evaluate. *)
Lemma args_loop_complete : forall xs kk nesting offset result cur pre last_seg,
  skipn offset s = cur ++ xs -> kk = (offset + List.length cur)%nat ->
  args_balanced xs nesting = true ->
  spec_segments xs nesting cur = pre ++ [last_seg] ->
  Forall (seg_ok call r) pre ->
  exists off,
    args_loop call r s xs kk nesting offset result =
      ArgsDone 0 off (result ++ map (seg_value call r) pre) /\
    skipn off s = last_seg.
Proof.
  esc_induction xs; [|intros c t IHt IHtt];
    intros kk nesting offset result cur pre last_seg Hs Hkk Hbal Hseg Hok.
  - simpl in *. apply Z.eqb_eq in Hbal. subst nesting.
    destruct (singleton_app_inv cur last_seg pre [] Hseg) as (-> & -> & _).
    exists offset. rewrite app_nil_r in *. auto.
  - simpl in Hbal, Hseg. destruct (Byte.eqb c SLASH) eqn:Esl.
    + destruct t as [|d t'].
      * apply Z.eqb_eq in Hbal. subst nesting.
        destruct (singleton_app_inv _ last_seg pre [] Hseg) as (-> & -> & _).
        exists offset. simpl. rewrite Esl, app_nil_r. auto.
      * simpl. rewrite Esl.
        apply (IHtt d t' eq_refl _ _ _ _ (cur ++ [c; d])); auto.
        -- rewrite Hs, <- app_assoc. reflexivity.
        -- rewrite length_app. simpl. lia.
    + destruct (depth_step c nesting <? 0) eqn:Eneg; [discriminate|].
      destruct (Byte.eqb c PIPE && (nesting =? 0)) eqn:Epi.
      * apply andb_true_iff in Epi as [Ep En].
        apply Z.eqb_eq in En. subst nesting.
        replace (depth_step c 0) with 0 in Hbal
          by (apply Byte.byte_dec_bl in Ep; subst c; reflexivity).
        destruct pre as [|p pre'].
        { simpl in Hseg. injection Hseg as _ Hseg.
          destruct (spec_segments_nonempty t 0 [] Hseg). }
        simpl in Hseg. injection Hseg as <- Hseg.
        inversion Hok as [|? ? Hc Hok']; subst.
        unfold seg_ok in Hc.
        destruct (Eval_ call r cur) as [v err] eqn:Ev. simpl in Hc. subst err.
        simpl. rewrite Esl, Ep. simpl.
        rewrite (slice_cur s cur (c :: t) offset Hs), Ev.
        destruct (IHt (S (offset + List.length cur)) 0
                    (S (offset + List.length cur)) (result ++ [v]) [] pre' last_seg)
          as (off & Hl & Hoff); auto.
        -- apply (skipn_after s cur t offset c Hs).
        -- exists off. rewrite Hl. split; [|exact Hoff].
           rewrite <- app_assoc. cbn [map]. unfold seg_value. rewrite Ev. reflexivity.
      * apply args_loop_step; auto.
        apply (IHt _ _ _ _ (cur ++ [c])); auto.
        -- rewrite Hs, <- app_assoc. reflexivity.
        -- rewrite length_app. simpl. lia.
Qed.

(** Loop invariant when some segment is the first to fail. *)
Lemma args_loop_first_error : forall xs kk nesting offset result cur pre bad post e,
  skipn offset s = cur ++ xs -> kk = (offset + List.length cur)%nat ->
  args_balanced xs nesting = true ->
  spec_segments xs nesting cur = pre ++ bad :: post ->
  Forall (seg_ok call r) pre -> snd (Eval_ call r bad) = Some e ->
  match args_loop call r s xs kk nesting offset result with
  | ArgsAbort e' => e' = e
  | ArgsDone n off _ => n = 0 /\ skipn off s = bad
  end.
Proof.
  esc_induction xs; [|intros c t IHt IHtt];
    intros kk nesting offset result cur pre bad post e Hs Hkk Hbal Hseg Hok He.
  - simpl in *. apply Z.eqb_eq in Hbal. subst nesting.
    destruct (singleton_app_inv cur bad pre post Hseg) as (-> & -> & _).
    rewrite app_nil_r in Hs. auto.
  - simpl in Hbal, Hseg. destruct (Byte.eqb c SLASH) eqn:Esl.
    + destruct t as [|d t'].
      * apply Z.eqb_eq in Hbal. subst nesting.
        destruct (singleton_app_inv _ bad pre post Hseg) as (-> & -> & _).
        simpl. rewrite Esl. auto.
      * simpl. rewrite Esl.
        apply (IHtt d t' eq_refl _ _ _ _ (cur ++ [c; d]) pre bad post); auto.
        -- rewrite Hs, <- app_assoc. reflexivity.
        -- rewrite length_app. simpl. lia.
    + destruct (depth_step c nesting <? 0) eqn:Eneg; [discriminate|].
      destruct (Byte.eqb c PIPE && (nesting =? 0)) eqn:Epi.
      * apply andb_true_iff in Epi as [Ep En].
        apply Z.eqb_eq in En. subst nesting.
        replace (depth_step c 0) with 0 in Hbal
          by (apply Byte.byte_dec_bl in Ep; subst c; reflexivity).
        subst kk. simpl. rewrite Esl, Ep. simpl.
        rewrite (slice_cur s cur (c :: t) offset Hs).
        destruct pre as [|p pre'].
        { simpl in Hseg. injection Hseg as <- _.
          destruct (Eval_ call r cur) as [v err]. simpl in He. subst err.
          reflexivity. }
        simpl in Hseg. injection Hseg as <- Hseg.
        inversion Hok as [|? ? Hc Hok']; subst.
        unfold seg_ok in Hc.
        destruct (Eval_ call r cur) as [v err]. simpl in Hc. subst err.
        apply (IHt _ _ _ _ [] pre' bad post); auto.
        -- apply (skipn_after s cur t offset c Hs).
      * apply (args_loop_step (fun st => match st with
                 | ArgsAbort e' => e' = e
                 | ArgsDone n off _ => n = 0 /\ skipn off s = bad end)); auto.
        apply (IHt _ _ _ _ (cur ++ [c]) pre bad post); auto.
        -- rewrite Hs, <- app_assoc. reflexivity.
        -- rewrite length_app. simpl. lia.
Qed.

End EvalArgsComplete.

Section EvalArgsExtras.

Context {Handler Data : Type}.
Variable call : Handler -> Resolver Handler -> option bytes ->
  value Handler Data * option (error Data).
Variable r : Resolver Handler.

Lemma evalargs_complete (s : bytes) :
  args_balanced s 0 = true ->
  Forall (fun seg => snd (Eval_ call r seg) = None) (spec_segments s 0 []) ->
  EvalArgs call r (Some s) =
    (Some (map (fun seg => fst (Eval_ call r seg)) (spec_segments s 0 [])), None).
Proof.
  intros Hbal Hok.
  destruct (exists_last (spec_segments_nonempty s 0 [])) as (pre & last_seg & Hseg).
  rewrite Hseg in *.
  apply Forall_app in Hok as [Hpre Hlast].
  inversion Hlast as [|? ? Hl _]; subst.
  destruct (args_loop_complete call r s s 0 0 0 [] [] pre last_seg eq_refl eq_refl
              Hbal Hseg Hpre) as (off & Hloop & Hoff).
  unfold EvalArgs. rewrite Hloop. simpl.
  unfold slice_from. rewrite Hoff.
  destruct (Eval_ call r last_seg) as [v err] eqn:Ev. simpl in Hl. subst err.
  rewrite map_app. simpl. rewrite Ev. reflexivity.
Qed.

(** Converse of the splitting claim: when the brackets of [s] balance
    (nesting never below 0 and 0 at the end) and every top-level segment
    evaluates without error, [EvalArgs] succeeds and returns the value of
    each segment, left to right. *)
Theorem EvalArgs_complete (s : bytes) :
  args_balanced s 0 = true ->
  Forall (fun seg => snd (Eval_ call r seg) = None) (spec_segments s 0 []) ->
  EvalArgs call r (Some s) =
    (Some (map (fun seg => fst (Eval_ call r seg)) (spec_segments s 0 [])), None).
Proof. apply evalargs_complete. Qed.

(** On balanced input the first segment whose evaluation fails decides
    the result: [EvalArgs] returns a nil slice and that segment's error,
    whatever the later segments hold. *)
Theorem EvalArgs_first_error (s : bytes) pre bad post e :
  args_balanced s 0 = true ->
  spec_segments s 0 [] = pre ++ bad :: post ->
  Forall (fun seg => snd (Eval_ call r seg) = None) pre ->
  snd (Eval_ call r bad) = Some e ->
  EvalArgs call r (Some s) = (None, Some e).
Proof.
  intros Hbal Hseg Hpre He.
  pose proof (args_loop_first_error call r s s 0 0 0 [] [] pre bad post e
                eq_refl eq_refl Hbal Hseg Hpre He) as H.
  unfold EvalArgs.
  destruct (args_loop call r s s 0 0 0 []) as [e'|n off res].
  - subst e'. reflexivity.
  - destruct H as [-> Hoff]. simpl. unfold slice_from. rewrite Hoff.
    destruct (Eval_ call r bad) as [v err]. simpl in He. subst err. reflexivity.
Qed.

End EvalArgsExtras.

(** ** Escape and Unescape, further facts *)

Lemma escape_spec_length xs :
  List.length (escape_spec xs) = (List.length xs + List.length (filter special xs))%nat.
Proof.
  induction xs as [|c t IH]; simpl; [reflexivity|].
  destruct (special c); simpl; rewrite IH; lia.
Qed.

Lemma filter_special_nil xs :
  List.length (filter special xs) = O -> forallb plain xs = true.
Proof.
  induction xs as [|c t IH]; simpl; [reflexivity|].
  unfold plain at 1. destruct (special c); simpl; [discriminate|]. exact IH.
Qed.

Lemma unescape_Escape_bytes (x : bytes) : Unescape (escape_spec x) = x.
Proof.
  unfold Unescape.
  pose proof (unescape_loop_escaped (escape_spec x) x [] eq_refl eq_refl) as E.
  simpl in E. rewrite E.
  destruct (forallb plain x) eqn:H; [|reflexivity].
  apply escape_spec_plain. exact H.
Qed.

Definition not_slash (c : byte) : bool := negb (Byte.eqb c SLASH).

Lemma removelast_cons_cons {A} (a b : A) t :
  removelast (a :: b :: t) = a :: removelast (b :: t).
Proof. reflexivity. Qed.

(** The loop of [Unescape] stays without a buffer until an escape byte
    is followed by another byte. *)
Lemma unescape_loop_general s : forall xs pre,
  s = pre ++ xs -> forallb not_slash pre = true ->
  unescape_loop s xs (List.length pre) None false =
    if forallb not_slash (removelast xs) then None
    else Some (pre ++ unescape_spec xs).
Proof.
  induction xs as [|c t IH]; intros pre Hs Hpre; [reflexivity|].
  cbn [unescape_loop]. simpl negb.
  destruct (Byte.eqb c SLASH) eqn:Esl; simpl andb; cbv iota.
  - destruct t as [|d t']; [reflexivity|].
    cbn [unescape_loop]. simpl negb. simpl andb. cbv iota.
    rewrite Nat.sub_1_r. simpl Nat.pred. rewrite append_Some.
    replace (firstn (List.length pre) s) with pre
      by (rewrite Hs, firstn_app, Nat.sub_diag, firstn_all; simpl;
          rewrite app_nil_r; reflexivity).
    rewrite removelast_cons_cons. simpl forallb.
    unfold not_slash at 1. rewrite Esl. simpl.
    rewrite Esl.
    transitivity (Some ((pre ++ [d]) ++ unescape_spec t')).
    + apply unescape_loop_some.
    + rewrite <- app_assoc. reflexivity.
  - specialize (IH (pre ++ [c])).
    rewrite length_app in IH. simpl in IH. rewrite Nat.add_1_r in IH.
    rewrite IH.
    + simpl. rewrite Esl.
      destruct t as [|d t']; [reflexivity|].
      clear IH.
      set (R := removelast (d :: t')). cbn [forallb].
      replace (not_slash c) with true
        by (unfold not_slash; rewrite Esl; reflexivity).
      simpl andb.
      destruct (forallb not_slash R); [reflexivity|].
      rewrite <- app_assoc. reflexivity.
    + rewrite Hs, <- app_assoc. reflexivity.
    + rewrite forallb_app, Hpre. simpl. unfold not_slash. rewrite Esl. reflexivity.
Qed.

Lemma special_false c :
  special c = false ->
  Byte.eqb c SLASH = false /\ Byte.eqb c OPEN = false /\
  Byte.eqb c CLOSE = false /\ Byte.eqb c PIPE = false.
Proof.
  unfold special. intro H.
  repeat (apply orb_false_iff in H as [H ?]). auto.
Qed.

Lemma depth_step_plain c d : special c = false -> depth_step c d = d.
Proof.
  intro H. destruct (special_false c H) as (_ & E1 & E2 & _).
  unfold depth_step. rewrite E1, E2. reflexivity.
Qed.

(** An escaped byte sequence stays inside one argument segment. *)
Lemma seg_walk_escape : forall k d, 0 <= d -> seg_walk (escape_spec k) d = Some d.
Proof.
  induction k as [|c t IH]; intros d Hd; simpl; [reflexivity|].
  destruct (special c) eqn:Hc; cbn [seg_walk].
  - replace (Byte.eqb SLASH SLASH) with true by reflexivity. apply IH. exact Hd.
  - destruct (special_false c Hc) as (E1 & _ & _ & E4).
    rewrite E1, E4. simpl. rewrite (depth_step_plain c d Hc).
    replace (d <? 0) with false by (symmetry; apply Z.ltb_ge; lia).
    apply IH. exact Hd.
Qed.

Lemma escape_spec_head k : forall c t, escape_spec k = c :: t -> Byte.eqb c OPEN = false.
Proof.
  destruct k as [|x k']; simpl; intros c t H; [discriminate|].
  destruct (special x) eqn:Hx; injection H as <- _; [reflexivity|].
  apply (special_false x Hx).
Qed.

Lemma Eval_escape_spec {Handler Data} call (r : Resolver Handler) k :
  @Eval_ Handler Data call r (escape_spec k) = (Raw (escape_spec k), None).
Proof.
  unfold Eval_. destruct (escape_spec k) as [|c t] eqn:E; [reflexivity|].
  rewrite (escape_spec_head k c t E). reflexivity.
Qed.

(** The one-segment split of a byte sequence that stays in a segment. *)
Lemma seg_walk_single xs :
  seg_walk xs 0 = Some 0 ->
  spec_segments xs 0 [] = [xs] /\ args_balanced xs 0 = true.
Proof.
  intro H. destruct (seg_walk_app xs [] 0 0 [] H) as [H1 H2].
  rewrite app_nil_r in H1, H2. rewrite H1, H2. split; reflexivity.
Qed.

Lemma EvalArgs_escape_spec {Handler Data} call (r : Resolver Handler) k :
  @EvalArgs Handler Data call r (Some (escape_spec k)) =
    (Some [Raw (escape_spec k)], None).
Proof.
  destruct (seg_walk_single (escape_spec k) (seg_walk_escape k 0 (Z.le_refl 0)))
    as [Hseg Hbal].
  rewrite (evalargs_complete call r _ Hbal); rewrite Hseg.
  - simpl. rewrite Eval_escape_spec. reflexivity.
  - constructor; [rewrite Eval_escape_spec; reflexivity|constructor].
Qed.

Section EscapeExtras.

Context {Handler Data : Type}.
Variable call : Handler -> Resolver Handler -> option bytes ->
  value Handler Data * option (error Data).
Variable r : Resolver Handler.

(** [Escape] returns its input unchanged exactly when the input holds
    none of the four special bytes. *)
Theorem Escape_unchanged_iff (s : bytes) : Escape s = s <-> forallb plain s = true.
Proof.
  rewrite Escape_spec. split.
  - intro H. apply filter_special_nil.
    pose proof (escape_spec_length s) as L. rewrite H in L. lia.
  - apply escape_spec_plain.
Qed.

(** [Escape] adds exactly one byte per special byte of its input. *)
Theorem Escape_length (s : bytes) :
  List.length (Escape s) = (List.length s + List.length (filter special s))%nat.
Proof. rewrite Escape_spec. apply escape_spec_length. Qed.

(** Distinct inputs escape to distinct outputs. *)
Theorem Escape_injective (a b : bytes) : Escape a = Escape b -> a = b.
Proof.
  rewrite !Escape_spec. intro H.
  rewrite <- (unescape_escape_spec a), <- (unescape_escape_spec b), H.
  reflexivity.
Qed.

(** [Unescape] returns its input unchanged when no escape byte is
    followed by another byte (the only escape byte, if any, is the last
    byte); otherwise it drops every escape byte that protects the next one
    and a final dangling escape byte. *)
Theorem Unescape_characterization (s : bytes) :
  Unescape s =
    if forallb not_slash (removelast s) then s else unescape_spec s.
Proof.
  unfold Unescape.
  pose proof (unescape_loop_general s s [] eq_refl eq_refl) as E.
  simpl in E. rewrite E.
  destruct (forallb not_slash (removelast s)); reflexivity.
Qed.

(** The output of [Escape] is atomic: [Eval] returns it as one [Raw]
    value, and as a handler's arguments it is a single [Raw] argument. *)
Theorem Escape_atomic (s : bytes) :
  Eval_ call r (Escape s) = (Raw (Escape s), None) /\
  EvalArgs call r (Some (Escape s)) = (Some [Raw (Escape s)], None).
Proof.
  rewrite Escape_spec. split.
  - apply Eval_escape_spec.
  - apply EvalArgs_escape_spec.
Qed.

End EscapeExtras.

(** ** The json codec *)

Lemma bytes_eqb_refl a : bytes_eqb a a = true.
Proof. induction a as [|x a IH]; simpl; [reflexivity|]. rewrite (Byte.byte_dec_lb eq_refl). exact IH. Qed.


(** The values [Encode] handles without numbers: nil, strings, slices
    and maps (a map in the order its range loop visits it). *)
Inductive jsimple :=
| SNull
| SString (s : bytes)
| SArray (l : list jsimple)
| SMap (m : list (bytes * jsimple)).

Fixpoint jsimple_ind' (P : jsimple -> Prop)
  (H0 : P SNull) (H1 : forall s, P (SString s))
  (H2 : forall l, Forall P l -> P (SArray l))
  (H3 : forall m, Forall (fun p => P (snd p)) m -> P (SMap m))
  (v : jsimple) {struct v} : P v :=
  match v with
  | SNull => H0
  | SString s => H1 s
  | SArray l =>
      H2 l ((fix G (l : list jsimple) : Forall P l :=
               match l with
               | [] => Forall_nil P
               | x :: l' => Forall_cons x (jsimple_ind' P H0 H1 H2 H3 x) (G l')
               end) l)
  | SMap m =>
      H3 m ((fix G (m : list (bytes * jsimple)) : Forall (fun p => P (snd p)) m :=
               match m with
               | [] => Forall_nil _
               | (k, x) :: m' =>
                   Forall_cons (P := fun p => P (snd p)) (k, x)
                     (jsimple_ind' P H0 H1 H2 H3 x) (G m')
               end) m)
  end.

(** Pipe-separated segments, as [EvalArgs] splits them. *)
Fixpoint join_pipe (segs : list bytes) : bytes :=
  match segs with
  | [] => []
  | [x] => x
  | x :: l => x ++ PIPE :: join_pipe l
  end.

Lemma flat_map_pipe (segs : list bytes) :
  segs <> [] -> flat_map (fun arg => [PIPE] ++ arg) segs = PIPE :: join_pipe segs.
Proof.
  induction segs as [|x l IH]; intro H; [contradiction|].
  destruct l as [|y l].
  - simpl. rewrite app_nil_r. reflexivity.
  - transitivity ([PIPE] ++ x ++ flat_map (fun arg => [PIPE] ++ arg) (y :: l));
      [reflexivity|].
    rewrite IH by discriminate. reflexivity.
Qed.

Lemma call_nil name : call name [] = OPEN :: name ++ [CLOSE].
Proof. reflexivity. Qed.

Lemma call_cons name a args :
  call name (a :: args) = OPEN :: (name ++ PIPE :: join_pipe (a :: args)) ++ [CLOSE].
Proof.
  unfold call. rewrite flat_map_pipe by discriminate.
  simpl. rewrite <- app_assoc. reflexivity.
Qed.

(** Segments that each stay in a segment are what [EvalArgs] splits
    their pipe-joined sequence into. *)
Lemma join_pipe_segments (segs : list bytes) :
  segs <> [] -> Forall (fun x => seg_walk x 0 = Some 0) segs ->
  spec_segments (join_pipe segs) 0 [] = segs /\
  args_balanced (join_pipe segs) 0 = true.
Proof.
  induction segs as [|x l IH]; intros Hne Hw; [contradiction|].
  inversion Hw as [|? ? Hx Hl]; subst.
  destruct l as [|y l].
  - apply seg_walk_single. exact Hx.
  - destruct (IH ltac:(discriminate) Hl) as [IH1 IH2].
    change (join_pipe (x :: y :: l)) with (x ++ PIPE :: join_pipe (y :: l)).
    destruct (seg_walk_app x (PIPE :: join_pipe (y :: l)) 0 0 [] Hx) as [H1 H2].
    set (J := join_pipe (y :: l)) in *.
    rewrite H1, H2. simpl. change (depth_step PIPE 0) with 0. rewrite IH1, IH2. split; reflexivity.
Qed.

Lemma plain_seg_walk name d : forallb plain name = true -> 0 <= d ->
  seg_walk name d = Some d.
Proof.
  intros H Hd. rewrite <- (escape_spec_plain name H). apply seg_walk_escape. exact Hd.
Qed.

Lemma seg_walk_pipes (args : list bytes) :
  Forall (fun x => seg_walk x 0 = Some 0) args ->
  seg_walk (flat_map (fun arg => [PIPE] ++ arg) args) 1 = Some 1.
Proof.
  induction 1 as [|x l Hx Hl IH]; [reflexivity|].
  cbn [flat_map app]. simpl seg_walk.
  rewrite (seg_walk_app_some x _ 1 1); [exact IH|].
  apply (seg_walk_shift x 0 0 1 Hx); lia.
Qed.

(** The output of [call] is closed: it stays in one argument segment. *)
Lemma seg_walk_call name args :
  forallb plain name = true -> Forall (fun x => seg_walk x 0 = Some 0) args ->
  seg_walk (call name args) 0 = Some 0.
Proof.
  intros Hn Ha. unfold call. cbn [app]. simpl seg_walk.
  rewrite (seg_walk_app_some name _ 1 1) by (apply plain_seg_walk; auto; lia).
  rewrite (seg_walk_app_some _ _ 1 1) by (apply seg_walk_pipes; exact Ha).
  reflexivity.
Qed.

Lemma seg_walk_Escape k : seg_walk (Escape k) 0 = Some 0.
Proof. rewrite Escape_spec. apply seg_walk_escape. lia. Qed.

Lemma fold_max_in (a : nat) l : In a l -> (a <= fold_right Nat.max O l)%nat.
Proof.
  induction l as [|x l IH]; simpl; [contradiction|].
  intros [<-|H]; [lia|]. specialize (IH H). lia.
Qed.

Lemma map_insert_same {float} (K : bytes) (X : jvalue float) :
  map_insert K X [(K, X)] = [(K, X)].
Proof. unfold map_insert. simpl. rewrite bytes_eqb_refl. reflexivity. Qed.

(** Every round of the [evalMap] loop stores [v[0] -> v[1]] again. *)
Lemma evalMap_loop_first {float} (v : list (jvalue float)) key n : forall rest,
  nth 0 v VNil = Raw key -> List.length rest = (2 * n)%nat ->
  evalMap_loop v rest [(Unescape key, nth 1 v VNil)] =
    (VData (JMap [(Unescape key, nth 1 v VNil)]), None).
Proof.
  induction n as [|n IH]; intros rest H0 Hl.
  - destruct rest; [reflexivity|discriminate].
  - destruct rest as [|a [|b rest]]; try (simpl in Hl; lia).
    simpl. rewrite H0, map_insert_same. apply IH; [exact H0|simpl in Hl; lia].
Qed.

Lemma length_flat_map_pairs {A B} (f g : A -> B) (m : list A) :
  List.length (flat_map (fun p => [f p; g p]) m) = (2 * List.length m)%nat.
Proof. induction m as [|p m IH]; simpl; [reflexivity|]. rewrite IH. lia. Qed.

Section JsonRoundTrip.

Context {float : Type}.
Variable FormatInt : Z -> bytes.
Variable FormatFloat : float -> bytes.
Variable ParseFloat : bytes -> float * option string.

Fixpoint to_g (v : jsimple) : gvalue float :=
  match v with
  | SNull => GNil
  | SString s => GString s
  | SArray l => GSlice (map to_g l)
  | SMap m => GMap (map (fun p => let '(k, x) := p in (k, to_g x)) m)
  end.

(** What [Decode] gives back: a map keeps only its first entry, since
    the loop of [evalMap] reads [v[0]] and [v[1]] on every round. *)
Fixpoint decoded (v : jsimple) : jvalue float :=
  match v with
  | SNull => VNil
  | SString s => VData (JString s)
  | SArray [] => VData (JArray None)
  | SArray l => VData (JArray (Some (map decoded l)))
  | SMap [] => VData (JMap [])
  | SMap ((k, x) :: _) => VData (JMap [(k, decoded x)])
  end.

(** Fuel the dispatcher needs: one call per nesting level. *)
Fixpoint jneed (v : jsimple) : nat :=
  match v with
  | SNull | SString _ => 1
  | SArray l => S (fold_right Nat.max O (map jneed l))
  | SMap m => S (fold_right Nat.max O (map (fun p => let '(_, x) := p in jneed x) m))
  end.

Fixpoint enc_bytes (v : jsimple) : bytes :=
  match v with
  | SNull => call (bs "json:null") []
  | SString s => call (bs "json:string") [Escape s]
  | SArray l => call (bs "json:array") (map enc_bytes l)
  | SMap m =>
      call (bs "json:map")
        (flat_map (fun p => let '(k, x) := p in [Escape k; enc_bytes x]) m)
  end.


(** [EncodeTo] on these values writes [enc_bytes] and returns no error. *)
Lemma EncodeTo_simple v :
  EncodeTo FormatInt FormatFloat (to_g v) = (enc_bytes v, None).
Proof.
  induction v as [| s | l IH | m IH] using jsimple_ind'; try reflexivity.
  - simpl.
    match goal with |- context [?F (map to_g l)] =>
      assert (HE : F (map to_g l) =
                   (flat_map (fun arg => [PIPE] ++ arg) (map enc_bytes l), None))
    end.
    { induction IH as [|x l Hx Hl IHl]; [reflexivity|].
      simpl. rewrite Hx, IHl. reflexivity. }
    rewrite HE. reflexivity.
  - simpl.
    match goal with |- context [?F (map ?g m)] =>
      assert (HE : F (map g m) =
                   (flat_map (fun arg => [PIPE] ++ arg)
                      (flat_map (fun p => let '(k, x) := p in [Escape k; enc_bytes x]) m),
                    None))
    end.
    { induction IH as [|[k x] m Hx Hm IHm]; [reflexivity|].
      simpl in Hx |- *. rewrite Hx, IHm. simpl.
      reflexivity. }
    rewrite HE. reflexivity.
Qed.


Lemma seg_walk_enc v : seg_walk (enc_bytes v) 0 = Some 0.
Proof.
  induction v as [| s | l IH | m IH] using jsimple_ind'.
  - reflexivity.
  - apply seg_walk_call; [reflexivity|].
    constructor; [apply seg_walk_Escape|constructor].
  - apply seg_walk_call; [reflexivity|].
    apply Forall_map. exact IH.
  - apply seg_walk_call; [reflexivity|].
    apply Forall_forall. intros seg Hin.
    apply in_flat_map in Hin as ([k x] & Hp & Hin).
    rewrite Forall_forall in IH. specialize (IH (k, x) Hp). simpl in IH.
    destruct Hin as [<-|[<-|[]]]; [apply seg_walk_Escape|exact IH].
Qed.

Lemma jneed_pos v : (1 <= jneed v)%nat.
Proof. destruct v; simpl; lia. Qed.


(** Decoding [enc_bytes v] under any resolver of the [Decode] shape. *)
Lemma decode_enc_bytes : forall v fuel F, (jneed v <= fuel)%nat ->
  Eval_ (json_invoke ParseFloat fuel) (Recurse (json_invoke ParseFloat F) HError Resolve)
    (enc_bytes v) = (decoded v, None).
Proof.
  intro v.
  induction v as [| s | l IH | m IH] using jsimple_ind'; intros fuel F Hf;
    (destruct fuel as [|f]; [simpl in Hf; lia|]).
  - reflexivity.
  - change (enc_bytes (SString s)) with (call (bs "json:string") [Escape s]).
    rewrite call_cons. rewrite Eval_at_pipe by reflexivity.
    replace (Recurse (json_invoke ParseFloat F) HError Resolve (bs "json:string"))
      with (@HString float) by reflexivity.
    cbn [json_invoke]. unfold evalString.
    rewrite Escape_spec. simpl join_pipe. rewrite EvalArgs_escape_spec.
    rewrite unescape_Escape_bytes. reflexivity.
  - destruct l as [|x l']; [reflexivity|].
    change (enc_bytes (SArray (x :: l')))
      with (call (bs "json:array") (enc_bytes x :: map enc_bytes l')).
    rewrite call_cons. rewrite Eval_at_pipe by reflexivity.
    replace (Recurse (json_invoke ParseFloat F) HError Resolve (bs "json:array"))
      with (@HArray float) by reflexivity.
    cbn [json_invoke]. unfold evalArray.
    set (R := Recurse (json_invoke ParseFloat F) HError Resolve).
    change (enc_bytes x :: map enc_bytes l') with (map enc_bytes (x :: l')).
    assert (Hsub : forall y, In y (x :: l') ->
              Eval_ (json_invoke ParseFloat f) R (enc_bytes y) = (decoded y, None)).
    { intros y Hy. rewrite Forall_forall in IH. apply IH; [exact Hy|].
      simpl in Hf. pose proof (fold_max_in (jneed y) (map jneed (x :: l'))
                                 (in_map jneed _ _ Hy)).
      simpl in H |- *. lia. }
    destruct (join_pipe_segments (map enc_bytes (x :: l')) ltac:(discriminate))
      as [Hseg Hbal].
    { apply Forall_forall. intros seg Hin. apply in_map_iff in Hin as (y & <- & _).
      apply seg_walk_enc. }
    rewrite (evalargs_complete _ R _ Hbal); rewrite Hseg.
    + rewrite map_map.
      rewrite (map_ext_in _ decoded (x :: l')).
      * reflexivity.
      * intros y Hy. rewrite (Hsub y Hy). reflexivity.
    + apply Forall_forall. intros seg Hin. apply in_map_iff in Hin as (y & <- & Hy).
      rewrite (Hsub y Hy). reflexivity.
  - destruct m as [|[k x] m']; [reflexivity|].
    set (segs := flat_map (fun p : bytes * jsimple => let '(k, x) := p in
                             [Escape k; enc_bytes x]) ((k, x) :: m')).
    change (enc_bytes (SMap ((k, x) :: m'))) with (call (bs "json:map") segs).
    change segs with (Escape k :: enc_bytes x ::
      flat_map (fun p : bytes * jsimple => let '(k, x) := p in
                  [Escape k; enc_bytes x]) m').
    rewrite call_cons. rewrite Eval_at_pipe by reflexivity.
    replace (Recurse (json_invoke ParseFloat F) HError Resolve (bs "json:map"))
      with (@HMap float) by reflexivity.
    cbn [json_invoke]. unfold evalMap.
    set (R := Recurse (json_invoke ParseFloat F) HError Resolve).
    change (Escape k :: enc_bytes x :: _) with segs.
    assert (Hsub : forall k' y, In (k', y) ((k, x) :: m') ->
              Eval_ (json_invoke ParseFloat f) R (enc_bytes y) = (decoded y, None)).
    { intros k' y Hy. rewrite Forall_forall in IH. apply (IH (k', y)); [exact Hy|].
      simpl in Hf.
      pose proof (fold_max_in (jneed y)
                    (map (fun p : bytes * jsimple => let '(_, x) := p in jneed x)
                       ((k, x) :: m'))
                    (in_map (fun p : bytes * jsimple => let '(_, x) := p in jneed x)
                       _ _ Hy)).
      simpl in H |- *. lia. }
    assert (Hseg_ok : forall seg, In seg segs ->
              Eval_ (json_invoke ParseFloat f) R seg = (Raw seg, None) \/
              exists k' y, In (k', y) ((k, x) :: m') /\ seg = enc_bytes y).
    { intros seg Hin. apply in_flat_map in Hin as ([k' y] & Hp & Hin).
      destruct Hin as [<-|[<-|[]]].
      - left. rewrite Escape_spec. apply Eval_escape_spec.
      - right. exists k', y. auto. }
    destruct (join_pipe_segments segs ltac:(discriminate)) as [Hseg Hbal].
    { apply Forall_forall. intros seg Hin. apply in_flat_map in Hin as ([k' y] & _ & Hin).
      destruct Hin as [<-|[<-|[]]]; [apply seg_walk_Escape|apply seg_walk_enc]. }
    rewrite (evalargs_complete _ R _ Hbal); rewrite Hseg.
    + change (map (fun seg => fst (Eval_ (json_invoke ParseFloat f) R seg)) segs)
        with (fst (Eval_ (json_invoke ParseFloat f) R (Escape k)) ::
              fst (Eval_ (json_invoke ParseFloat f) R (enc_bytes x)) ::
              map (fun seg => fst (Eval_ (json_invoke ParseFloat f) R seg))
                (flat_map (fun p : bytes * jsimple => let '(k, x) := p in
                             [Escape k; enc_bytes x]) m')).
      rewrite (Hsub k x (or_introl eq_refl)).
      rewrite Escape_spec, Eval_escape_spec. cbn [fst].
      set (rest := map _ (flat_map _ m')).
      assert (Hlen : List.length rest = (2 * List.length m')%nat).
      { unfold rest. rewrite length_map.
        transitivity (List.length (flat_map (fun p : bytes * jsimple =>
                        [Escape (fst p); enc_bytes (snd p)]) m')).
        - f_equal. apply flat_map_ext. intros [? ?]. reflexivity.
        - apply length_flat_map_pairs. }
      cbn [List.length]. rewrite Hlen.
      replace (Nat.even (S (S (2 * List.length m')))) with true
        by (symmetry; apply Nat.even_spec; exists (S (List.length m')); lia).
      cbn [negb].
      cbn [evalMap_loop nth].
      rewrite unescape_Escape_bytes.
      unfold map_insert at 1. cbn [filter].
      pose proof (evalMap_loop_first (Raw (escape_spec k) :: decoded x :: rest)
                    (escape_spec k) (List.length m') rest eq_refl Hlen) as E.
      cbn [nth] in E. rewrite unescape_Escape_bytes in E. exact E.
    + apply Forall_forall. intros seg Hin.
      destruct (Hseg_ok seg Hin) as [E|(k' & y & Hy & ->)].
      * rewrite E. reflexivity.
      * rewrite (Hsub k' y Hy). reflexivity.
Qed.


(** Nil, strings, slices and maps survive [Encode] then [Decode], with
    one loss: a decoded map holds only the first entry the encoder wrote
    (see [decoded]).  Enough fuel means one dispatch per nesting level. *)
Theorem Decode_Encode_simple (v : jsimple) (fuel : nat) :
  (jneed v <= fuel)%nat ->
  exists b, Encode FormatInt FormatFloat (to_g v) = (Some b, None) /\
            Decode ParseFloat fuel b = (decoded v, None).
Proof.
  intro Hf. exists (enc_bytes v). split.
  - unfold Encode. rewrite EncodeTo_simple. reflexivity.
  - unfold Decode. apply decode_enc_bytes. exact Hf.
Qed.

End JsonRoundTrip.

Fixpoint gvalue_ind' {float} (P : gvalue float -> Prop)
  (Hnil : P GNil) (Hint : forall z, P (GInt z)) (Hint32 : forall z, P (GInt32 z))
  (Hint64 : forall z, P (GInt64 z)) (Hf32 : forall f, P (GFloat32 f))
  (Hf64 : forall f, P (GFloat64 f)) (Hstr : forall s, P (GString s))
  (Hsl : forall l, Forall P l -> P (GSlice l))
  (Hmap : forall m, Forall (fun p => P (snd p)) m -> P (GMap m))
  (Hoth : P GOther) (v : gvalue float) {struct v} : P v :=
  let F := gvalue_ind' P Hnil Hint Hint32 Hint64 Hf32 Hf64 Hstr Hsl Hmap Hoth in
  match v with
  | GNil => Hnil
  | GInt z => Hint z
  | GInt32 z => Hint32 z
  | GInt64 z => Hint64 z
  | GFloat32 f => Hf32 f
  | GFloat64 f => Hf64 f
  | GString s => Hstr s
  | GSlice l =>
      Hsl l ((fix G (l : list (gvalue float)) : Forall P l :=
                match l with
                | [] => Forall_nil P
                | x :: l' => Forall_cons x (F x) (G l')
                end) l)
  | GMap m =>
      Hmap m ((fix G (m : list (bytes * gvalue float)) : Forall (fun p => P (snd p)) m :=
                 match m with
                 | [] => Forall_nil _
                 | (k, x) :: m' =>
                     Forall_cons (P := fun p => P (snd p)) (k, x) (F x) (G m')
                 end) m)
  | GOther => Hoth
  end.

(** Whether a value holds, at any depth, a type [EncodeTo] rejects. *)
Fixpoint has_other {float} (v : gvalue float) : bool :=
  match v with
  | GOther => true
  | GSlice l => existsb has_other l
  | GMap m => existsb (fun p => let '(_, x) := p in has_other x) m
  | _ => false
  end.

(** The text [EncodeTo] writes for a number. *)
Definition num_text {float} (FormatInt : Z -> bytes) (FormatFloat : float -> bytes)
  (v : gvalue float) : option bytes :=
  match v with
  | GInt z | GInt32 z | GInt64 z => Some (FormatInt z)
  | GFloat32 f | GFloat64 f => Some (FormatFloat f)
  | _ => None
  end.


Section JsonExtras.

Context {float : Type}.
Variable FormatInt : Z -> bytes.
Variable FormatFloat : float -> bytes.
Variable ParseFloat : bytes -> float * option string.




Lemma EncodeTo_error (v : gvalue float) :
  snd (EncodeTo FormatInt FormatFloat v) =
    if has_other v then Some (new_error "json: unknown type") else None.
Proof.
  induction v as [| | | | | | | l IH | m IH |] using gvalue_ind'; try reflexivity.
  - simpl.
    match goal with |- context [?F l] =>
      assert (HE : snd (F l) =
                   if existsb has_other l then Some (new_error "json: unknown type")
                   else None)
    end.
    { induction IH as [|x l Hx Hl IHl]; [reflexivity|].
      simpl. destruct (EncodeTo FormatInt FormatFloat x) as [b err].
      simpl in Hx. subst err. destruct (has_other x); [reflexivity|].
      simpl. destruct (_ l) as [b' err']. exact IHl. }
    destruct (_ l) as [b err]. simpl in HE. subst err.
    destruct (existsb has_other l); reflexivity.
  - simpl.
    match goal with |- context [?F m] =>
      assert (HE : snd (F m) =
                   if existsb (fun p => let '(_, x) := p in has_other x) m
                   then Some (new_error "json: unknown type") else None)
    end.
    { induction IH as [|[k x] m Hx Hm IHm]; [reflexivity|].
      simpl in Hx |- *. destruct (EncodeTo FormatInt FormatFloat x) as [b err].
      simpl in Hx. subst err. destruct (has_other x); [reflexivity|].
      simpl. destruct (_ m) as [b' err']. exact IHm. }
    destruct (_ m) as [b err]. simpl in HE. subst err.
    destruct (existsb _ m); reflexivity.
Qed.


(** [json:null] never looks at its arguments: whatever follows the first
    pipe, even unbalanced or invalid calls, decodes to nil without error. *)
Theorem Decode_null_lazy (fuel : nat) (rest : bytes) :
  Decode ParseFloat (S fuel) (OPEN :: (bs "json:null" ++ PIPE :: rest) ++ [CLOSE]) =
    (VNil, None).
Proof. unfold Decode. rewrite Eval_at_pipe by reflexivity. reflexivity. Qed.



(** [evalMap] checks and stores only the first pair: once the arguments
    evaluate to an even number of values starting with a [Raw] key, the
    result maps that key (unescaped) to the second value, whatever the
    later keys and values are. *)
Theorem evalMap_first_pair (inv : invoker float) (r : Resolver (jhandler float))
  (args : option bytes) (key : bytes) (x : jvalue float) (rest : list (jvalue float)) :
  EvalArgs inv r args = (Some (Raw key :: x :: rest), None) ->
  Nat.even (List.length rest) = true ->
  evalMap inv r args = (VData (JMap [(Unescape key, x)]), None).
Proof.
  intros H He. unfold evalMap. rewrite H.
  change (Nat.even (List.length (Raw key :: x :: rest))) with (Nat.even (List.length rest)).
  rewrite He. cbn [negb].
  apply Nat.even_spec in He as [n Hn].
  cbn [evalMap_loop nth].
  unfold map_insert at 1. cbn [filter].
  apply (evalMap_loop_first (Raw key :: x :: rest) key n rest eq_refl Hn).
Qed.

(** [Encode] fails exactly when the value holds, at any depth, a type it
    does not handle, and then with "json: unknown type"; otherwise it
    returns the bytes [EncodeTo] writes. *)
Theorem Encode_error_iff (v : gvalue float) :
  Encode FormatInt FormatFloat v =
    if has_other v then (None, Some (new_error "json: unknown type"))
    else (Some (fst (EncodeTo FormatInt FormatFloat v)), None).
Proof.
  pose proof (EncodeTo_error v) as E. unfold Encode.
  destruct (EncodeTo FormatInt FormatFloat v) as [b err].
  simpl in E. subst err. destruct (has_other v); reflexivity.
Qed.

(** A number whose text has no special byte decodes to what
    [strconv.ParseFloat] gives on that text, its error wrapped. *)
Theorem Decode_Encode_number (v : gvalue float) (d : bytes) (fuel : nat) :
  num_text FormatInt FormatFloat v = Some d -> forallb plain d = true ->
  exists b, Encode FormatInt FormatFloat v = (Some b, None) /\
    Decode ParseFloat (S fuel) b =
      (VData (JFloat (fst (ParseFloat d))), option_map new_error (snd (ParseFloat d))).
Proof.
  intros Hv Hd. exists (call (bs "json:number") [d]). split.
  - destruct v; simpl in Hv; try discriminate; injection Hv as <-; reflexivity.
  - unfold Decode. rewrite call_cons. rewrite Eval_at_pipe by reflexivity.
    replace (Recurse (json_invoke ParseFloat (S fuel)) HError Resolve (bs "json:number"))
      with (@HNumber float) by reflexivity.
    set (R := Recurse (json_invoke ParseFloat (S fuel)) HError Resolve).
    cbn [json_invoke]. unfold evalNumber, evalString. simpl join_pipe.
    pose proof (EvalArgs_escape_spec (json_invoke ParseFloat fuel) R d) as E.
    pose proof (unescape_Escape_bytes d) as U.
    rewrite (escape_spec_plain d Hd) in E, U.
    match goal with |- context [EvalArgs ?a ?b ?c] =>
      replace (EvalArgs a b c) with (Some [@Raw (jhandler float) (jdata float) d],
                                    @None (jerror float))
        by (symmetry; exact E)
    end.
    cbn. rewrite U.
    destruct (ParseFloat d) as [f perr]. reflexivity.
Qed.

End JsonExtras.

(** ** Further instances at concrete inputs

    For the json codec, [strconv] is replaced by stand-ins: numbers are
    integers, formatting writes a fixed text and parsing returns the
    length of its input. *)

Definition fmt_int (z : Z) : bytes := bs "7".
Definition fmt_float (f : Z) : bytes := bs "7E+00".
Definition len_parse (b : bytes) : Z * option string := (Z.of_nat (List.length b), None).

Lemma EvalArgs_complete_witness :
  args_balanced (bs "a|(b|c)|\|") 0 = true /\
  EvalArgs echo_call echo_resolver (Some (bs "a|(b|c)|\|")) =
    (Some (map (fun seg => fst (Eval_ echo_call echo_resolver seg))
             (spec_segments (bs "a|(b|c)|\|") 0 [])), None).
Proof.
  split; [reflexivity|].
  apply (EvalArgs_complete echo_call echo_resolver); [reflexivity|].
  repeat constructor.
Defined.

Lemma EvalArgs_first_error_witness :
  EvalArgs echo_call echo_resolver (Some (bs "a|(p)q|(r)")) =
    (None, Some (Error "nice: missing )")).
Proof.
  apply (EvalArgs_first_error echo_call echo_resolver (bs "a|(p)q|(r)")
           [bs "a"] (bs "(p)q") [bs "(r)"]).
  - reflexivity.
  - reflexivity.
  - repeat constructor.
  - reflexivity.
Defined.

Lemma Decode_Encode_simple_witness :
  (jneed (SMap [(bs "k(", SArray [SString (bs "a|b"); SNull]); (bs "z", SNull)])
     <= 3)%nat /\
  exists b,
    Encode fmt_int fmt_float
      (to_g (SMap [(bs "k(", SArray [SString (bs "a|b"); SNull]); (bs "z", SNull)]))
      = (Some b, None) /\
    Decode len_parse 3 b =
      (decoded (SMap [(bs "k(", SArray [SString (bs "a|b"); SNull]); (bs "z", SNull)]),
       None).
Proof.
  split; [simpl; lia|].
  apply Decode_Encode_simple. simpl. lia.
Defined.



Lemma evalMap_first_pair_witness :
  evalMap (json_invoke len_parse 3) Resolve (Some (bs "k|(json:null)|(json:string|x)|v")) =
    (VData (JMap [(Unescape (bs "k"), VNil)]), None).
Proof.
  apply (evalMap_first_pair (json_invoke len_parse 3) Resolve
           (Some (bs "k|(json:null)|(json:string|x)|v")) (bs "k") VNil
           [VData (JString (bs "x")); Raw (bs "v")]).
  - reflexivity.
  - reflexivity.
Defined.

Lemma Decode_Encode_number_witness :
  exists b, Encode fmt_int fmt_float (GInt 42) = (Some b, None) /\
    Decode len_parse 1 b =
      (VData (JFloat (fst (len_parse (bs "7")))),
       option_map new_error (snd (len_parse (bs "7")))).
Proof.
  apply (Decode_Encode_number fmt_int fmt_float len_parse (GInt 42) (bs "7") 0).
  - reflexivity.
  - reflexivity.
Defined.

Lemma Escape_injective_witness :
  Escape (bs "a(|") = bs "a\(\|" /\ bs "a(|" = bs "a(|".
Proof.
  split; [reflexivity|].
  apply Escape_injective. reflexivity.
Defined.
